(** * The per-guild music queue engine of [cogs/music.py]

    A shallow embedding of [MusicPlayer] (the queue engine), of its
    background coroutine [player_loop], and of [Music.get_player] (the
    registry of engines), followed by the properties of the playback
    queue that hold, or fail, on that code.

    Conventions of the embedding.
    - A Python object that is shared and mutated (a voice client, a
      [MusicPlayer]) lives in a store and is named by a reference.
    - [player_loop] is a coroutine of a single-threaded cooperative
      scheduler: between two [await]s that really suspend, nothing else
      runs.  The coroutine is therefore a program point ([LoopPoint]) and a
      function [resume] that runs it from one suspension to the next.
    - Wall-clock measurements ([time.perf_counter]) and the telemetry calls
      ([monitor.record_bot_task], which only appends to in-memory buffers)
      do not influence the queue and are left out, as is the float
      [volume]. *)

From Stdlib Require Import ZArith.
From stdpp Require Import gmap strings list pretty.

Open Scope Z_scope.

(** ** Tracks *)

(** [@dataclass class Track]: equality is field-wise, as generated by
    [dataclass].  The requester (a [discord.Member]) is kept as its id. *)
Record Track := mkTrack {
  title : string;
  stream_url : string;
  webpage_url : string;
  duration : option Z;
  requester : Z;
}.

#[global] Instance Track_eq_dec : EqDecision Track.
Proof. solve_decision. Defined.

(** ** The voice client (discord.py, outside the repository)

    Only what [music.py] observes of [discord.VoiceClient]:
    [is_connected], [is_playing], [is_paused], [play], [stop], [pause],
    [resume], [disconnect].  [play] raises [ClientException] when the
    client is not connected or is already playing. *)
Module Voice.

Record AudioPlayer := mkAudio {
  source : Track;        (* the track whose stream is being read *)
  paused : bool;
}.

Record VoiceClient := mkVoice {
  connected : bool;
  audio : option AudioPlayer;
}.

Definition fresh : VoiceClient := mkVoice true None.
Definition offline : VoiceClient := mkVoice false None.

Definition is_connected (v : VoiceClient) : bool := connected v.

Definition is_playing (v : VoiceClient) : bool :=
  match audio v with
  | Some p => negb (paused p)
  | None => false
  end.

Definition is_paused (v : VoiceClient) : bool :=
  match audio v with
  | Some p => paused p
  | None => false
  end.

Definition stop (v : VoiceClient) : VoiceClient :=
  mkVoice (connected v) None.

Definition pause (v : VoiceClient) : VoiceClient :=
  match audio v with
  | Some p => mkVoice (connected v) (Some (mkAudio (source p) true))
  | None => v
  end.

Definition resume (v : VoiceClient) : VoiceClient :=
  match audio v with
  | Some p => mkVoice (connected v) (Some (mkAudio (source p) false))
  | None => v
  end.

Definition disconnect (v : VoiceClient) : VoiceClient :=
  mkVoice false None.

(** [None] stands for the [ClientException] raised by [play]. *)
Definition play (v : VoiceClient) (src : Track) : option VoiceClient :=
  if negb (is_connected v) then None
  else if is_playing v then None
  else Some (mkVoice (connected v) (Some (mkAudio src false))).

End Voice.

Definition VoiceRef := nat.

(** ** The engine *)

Inductive Exn :=
| ClientException       (* building the source or [voice.play] failed *)
| CleanupException      (* [source.cleanup] raised something else than ValueError / OSError *)
| CancelledError.       (* cancellation delivered outside the [try] block *)

(** Where the coroutine [player_loop] stands. *)
Inductive LoopPoint :=
| AtStart                      (* task created, body not entered yet *)
| AwaitQueue                   (* suspended in [queue_event.wait()], line 158 *)
| AwaitSleep (seconds : Z)     (* suspended in [asyncio.sleep(seconds)], line 110 *)
| AwaitNext (track : Track)    (* at [next.wait()], line 132; [track] and its source are the locals *)
| Returned                     (* [except asyncio.CancelledError: pass] was taken *)
| Raised (e : Exn).            (* an exception left the coroutine *)

#[global] Instance Exn_eq_dec : EqDecision Exn.
Proof. solve_decision. Defined.

#[global] Instance LoopPoint_eq_dec : EqDecision LoopPoint.
Proof. solve_decision. Defined.

(** The argument of [asyncio.sleep] at line 110, in seconds. *)
Definition BACKOFF_SECONDS : Z := 1.

(** The attributes of a [MusicPlayer] object ([bot], [volume] and
    [monitor] left out), with the state of its [loop_task]. *)
Record MusicPlayer := mkPlayer {
  guild_id : Z;
  ffmpeg_path : string;
  pending : list Track;          (* deque *)
  queue_event : bool;            (* asyncio.Event *)
  next : bool;                   (* asyncio.Event *)
  current : option Track;
  voice : option VoiceRef;
  loop_task : LoopPoint;
}.

(** [MusicPlayer.__init__]. *)
Definition new_player (gid : Z) (path : string) : MusicPlayer :=
  mkPlayer gid path [] false false None None AtStart.

Definition set_pending (q : list Track) (p : MusicPlayer) : MusicPlayer :=
  mkPlayer (guild_id p) (ffmpeg_path p) q (queue_event p) (next p)
           (current p) (voice p) (loop_task p).

Definition set_queue_event (b : bool) (p : MusicPlayer) : MusicPlayer :=
  mkPlayer (guild_id p) (ffmpeg_path p) (pending p) b (next p)
           (current p) (voice p) (loop_task p).

Definition set_next (b : bool) (p : MusicPlayer) : MusicPlayer :=
  mkPlayer (guild_id p) (ffmpeg_path p) (pending p) (queue_event p) b
           (current p) (voice p) (loop_task p).

Definition set_current (c : option Track) (p : MusicPlayer) : MusicPlayer :=
  mkPlayer (guild_id p) (ffmpeg_path p) (pending p) (queue_event p) (next p)
           c (voice p) (loop_task p).

Definition set_voice_attr (v : option VoiceRef) (p : MusicPlayer) : MusicPlayer :=
  mkPlayer (guild_id p) (ffmpeg_path p) (pending p) (queue_event p) (next p)
           (current p) v (loop_task p).

Definition set_loop_task (l : LoopPoint) (p : MusicPlayer) : MusicPlayer :=
  mkPlayer (guild_id p) (ffmpeg_path p) (pending p) (queue_event p) (next p)
           (current p) (voice p) l.

(** One engine together with what it acts upon: the voice clients (a
    store, since [self.voice] aliases the client the commands use), and
    two logs that record what the loop did to the output:
    [started] - the tracks handed to [voice.play], in order;
    [cleaned] - the tracks whose source received [cleanup()]. *)
Record World := mkWorld {
  engine : MusicPlayer;
  voices : VoiceRef -> Voice.VoiceClient;
  started : list Track;
  cleaned : list Track;
}.

Definition upd_engine (f : MusicPlayer -> MusicPlayer) (w : World) : World :=
  mkWorld (f (engine w)) (voices w) (started w) (cleaned w).

Definition upd_voice (r : VoiceRef) (f : Voice.VoiceClient -> Voice.VoiceClient)
    (w : World) : World :=
  mkWorld (engine w)
          (fun r' => if decide (r' = r) then f (voices w r) else voices w r')
          (started w) (cleaned w).

Definition log_started (t : Track) (w : World) : World :=
  mkWorld (engine w) (voices w) (started w ++ [t]) (cleaned w).

Definition log_cleaned (t : Track) (w : World) : World :=
  mkWorld (engine w) (voices w) (started w) (cleaned w ++ [t]).

Definition at_point (l : LoopPoint) (w : World) : World :=
  upd_engine (set_loop_task l) w.

(** The world right after [MusicPlayer(bot, gid, path)]. *)
Definition new_world (gid : Z) (path : string)
    (vs : VoiceRef -> Voice.VoiceClient) : World :=
  mkWorld (new_player gid path) vs [] [].

(** *** The synchronous operations, lines 68-89 *)

Definition set_voice (r : VoiceRef) (w : World) : World :=
  upd_engine (set_voice_attr (Some r)) w.

Definition skip_current (w : World) : bool * World :=
  match voice (engine w) with
  | Some r =>
      if Voice.is_playing (voices w r)
      then (true, upd_engine (set_next true) (upd_voice r Voice.stop w))
      else (false, w)
  | None => (false, w)
  end.

Definition add_track (t : Track) (w : World) : World :=
  upd_engine (fun p => set_queue_event true (set_pending (pending p ++ [t]) p)) w.

Definition clear_queue (w : World) : World :=
  upd_engine (set_pending []) w.

Definition queue_items (w : World) : list Track := pending (engine w).

Definition queue_size (w : World) : Z := Z.of_nat (length (pending (engine w))).

(** *** The coroutine [player_loop], lines 91-158 *)

Inductive CleanupResult :=
| CleanupOk
| CleanupValueError      (* already released *)
| CleanupOSError         (* already released *)
| CleanupOtherError.

Section Consumer.

(** What the host decides: whether [discord.FFmpegPCMAudio(...)] can be
    built for a track, and how [source.cleanup()] ends for it. *)
Variable spawn_ok : Track -> bool.
Variable cleanup_of : Track -> CleanupResult.

(** The test of line 108, negated. *)
Definition voice_ready (w : World) : bool :=
  match voice (engine w) with
  | Some r => Voice.is_connected (voices w r)
  | None => false
  end.

(** Lines 108-132, with [track] just taken off [pending]: up to the
    [await] that follows. *)
Definition begin_track (t : Track) (w : World) : World :=
  match voice (engine w) with
  | Some r =>
      if Voice.is_connected (voices w r) then
        let w1 := upd_engine (set_current (Some t)) w in
        if spawn_ok t then
          match Voice.play (voices w1 r) t with
          | Some v' =>
              at_point (AwaitNext t)
                (log_started t (upd_voice r (fun _ => v') w1))
          | None => at_point (Raised ClientException) w1
          end
        else at_point (Raised ClientException) w1
      else
        at_point (AwaitSleep BACKOFF_SECONDS)
          (upd_engine (fun p => set_pending (t :: pending p) p) w)
  | None =>
      at_point (AwaitSleep BACKOFF_SECONDS)
        (upd_engine (fun p => set_pending (t :: pending p) p) w)
  end.

(** [_wait_for_track], entered or re-entered at line 155. *)
Definition wait_for_track (w : World) : World :=
  match pending (engine w) with
  | t :: rest => begin_track t (upd_engine (set_pending rest) w)
  | [] => at_point AwaitQueue (upd_engine (set_queue_event false) w)
  end.

(** Line 94 and what follows. *)
Definition loop_top (w : World) : World :=
  wait_for_track (upd_engine (set_next false) w).

(** Lines 133-149, then the next iteration. *)
Definition after_playback (t : Track) (w : World) : World :=
  match cleanup_of t with
  | CleanupOtherError =>
      at_point (Raised CleanupException) (log_cleaned t w)
  | _ => loop_top (upd_engine (set_current None) (log_cleaned t w))
  end.

(** [await self.next.wait()]: an [asyncio.Event] that is already set
    does not suspend the caller. *)
Definition settle (w : World) : World :=
  match loop_task (engine w) with
  | AwaitNext t => if next (engine w) then after_playback t w else w
  | _ => w
  end.

(** The scheduler gives the task a turn.  A task whose awaited event is
    not set stays where it is. *)
Definition resume (w : World) : World :=
  match loop_task (engine w) with
  | AtStart => loop_top w
  | AwaitQueue => if queue_event (engine w) then settle (wait_for_track w) else w
  | AwaitSleep _ => loop_top w
  | AwaitNext _ => settle w
  | Returned => w
  | Raised _ => w
  end.

(** [loop_task.cancel()]: [CancelledError] is raised at the pending
    [await]; all three lie inside the [try] of line 92.  A task that has
    not entered its body yet is cancelled outside that [try]; a task that
    is done ignores the request. *)
Definition cancel (w : World) : World :=
  match loop_task (engine w) with
  | AtStart => at_point (Raised CancelledError) w
  | AwaitQueue | AwaitSleep _ | AwaitNext _ => at_point Returned w
  | Returned | Raised _ => w
  end.

Definition suspended (l : LoopPoint) : bool :=
  match l with
  | AwaitQueue | AwaitSleep _ | AwaitNext _ => true
  | _ => false
  end.

(** *** What can happen to a session

    The callback [after_play] is posted to the event loop by the player
    thread ([call_soon_threadsafe]) and sets [next] whenever it arrives:
    right after the stream ran out ([TrackEnds]) or later, after a
    [stop()] ([AfterPlay]). *)

Inductive Event :=
| Enqueue (t : Track)            (* [add_track] *)
| Skip                           (* [skip_current] *)
| Clear                          (* [clear_queue] *)
| SetVoice (r : VoiceRef)        (* [set_voice] *)
| Resume                         (* the loop task gets a turn *)
| Cancel                         (* the loop task is cancelled *)
| AfterPlay                      (* the callback [after_play] reaches the event loop *)
| TrackEnds (r : VoiceRef)       (* the stream played on [r] runs out *)
| VoicePause (r : VoiceRef)      (* the pause command, lines 521-523 *)
| VoiceResume (r : VoiceRef)     (* the resume command, lines 538-540 *)
| VoiceStop (r : VoiceRef)       (* [voice.stop()] of the stop command *)
| VoiceConnect (r : VoiceRef)
| VoiceDisconnect (r : VoiceRef).

Definition apply_event (ev : Event) (w : World) : World :=
  match ev with
  | Enqueue t => add_track t w
  | Skip => snd (skip_current w)
  | Clear => clear_queue w
  | SetVoice r => set_voice r w
  | Resume => resume w
  | Cancel => cancel w
  | AfterPlay => upd_engine (set_next true) w
  | TrackEnds r => upd_engine (set_next true) (upd_voice r Voice.stop w)
  | VoicePause r =>
      if Voice.is_playing (voices w r) then upd_voice r Voice.pause w else w
  | VoiceResume r =>
      if Voice.is_paused (voices w r) then upd_voice r Voice.resume w else w
  | VoiceStop r => upd_voice r Voice.stop w
  | VoiceConnect r =>
      upd_voice r (fun v => Voice.mkVoice true (Voice.audio v)) w
  | VoiceDisconnect r => upd_voice r Voice.disconnect w
  end.

Definition run_events (evs : list Event) (w : World) : World :=
  foldl (fun w ev => apply_event ev w) w evs.

Definition enqueued_of (evs : list Event) : list Track :=
  omap (fun ev => match ev with Enqueue t => Some t | _ => None end) evs.

Definition is_clear (ev : Event) : bool :=
  match ev with Clear => true | _ => false end.

End Consumer.

(** ** The registry of engines, [Music.players] and [Music.get_player]

    [self.players] is a dict from guild id to a [MusicPlayer] object.  The
    objects live in [objects], in order of creation; a reference is an
    index into it. *)

Definition PlayerRef := nat.

Record Music := mkMusic {
  players : gmap Z PlayerRef;
  objects : list MusicPlayer;
}.

(** [Music.__init__]: [self.players = {}]. *)
Definition new_music : Music := mkMusic ∅ [].

(** Lines 290-295.  [path] is what [self.config.get("ffmpeg_path")] returns
    at the time of the call.  A [MusicPlayer] defines neither [__bool__]
    nor [__len__], so [not player] holds exactly for [None]. *)
Definition get_player (path : string) (gid : Z) (m : Music) : PlayerRef * Music :=
  match players m !! gid with
  | Some r => (r, m)
  | None =>
      let r := length (objects m) in
      (r, mkMusic (<[gid := r]> (players m)) (objects m ++ [new_player gid path]))
  end.

(** A sequence of [get_player] calls, each with the configured path of
    its moment. *)
Definition lookups (calls : list (string * Z)) (m : Music) : Music :=
  foldl (fun m c => snd (get_player c.1 c.2 m)) m calls.

(** ** Predicates used in the statements *)

(** What one turn of the loop leaves alone while no transport is ready. *)
Definition held (w w' : World) : Prop :=
  pending (engine w') = pending (engine w)
  ∧ current (engine w') = current (engine w)
  ∧ voice (engine w') = voice (engine w)
  ∧ voices w' = voices w
  ∧ started w' = started w
  ∧ cleaned w' = cleaned w
  ∧ loop_task (engine w') = AwaitSleep BACKOFF_SECONDS.

(** The loop is about to take a track off [pending]. *)
Definition dequeuing (w : World) : Prop :=
  loop_task (engine w) = AtStart
  ∨ (∃ d, loop_task (engine w) = AwaitSleep d)
  ∨ (loop_task (engine w) = AwaitQueue ∧ queue_event (engine w) = true).

Definition is_raised (l : LoopPoint) : bool :=
  match l with Raised _ => true | _ => false end.

(** Every track that arrived so far is either started, or waiting in
    [pending], in arrival order; a track can be missing in between only
    when the coroutine died while starting it. *)
Definition fifo_inv (arrived : list Track) (w : World) : Prop :=
  ∃ lost, started w ++ lost ++ pending (engine w) = arrived
          ∧ (is_raised (loop_task (engine w)) = false → lost = []).

(** The loop waits for the end of [t], which client [r] plays. *)
Definition playing_on (r : VoiceRef) (t : Track) (w : World) : Prop :=
  loop_task (engine w) = AwaitNext t
  ∧ voice (engine w) = Some r
  ∧ voices w r = Voice.mkVoice true (Some (Voice.mkAudio t false))
  ∧ current (engine w) = Some t.

(** The events of a session in which every track plays to its end on
    client [r]: one end of stream and one turn of the loop per track. *)
Definition play_out (r : VoiceRef) (ts : list Track) : list Event :=
  concat (map (fun _ => [TrackEnds r; Resume]) ts).


(** Every registered reference denotes an engine, created for that guild. *)
Definition registry_inv (m : Music) : Prop :=
  ∀ g r, players m !! g = Some r →
         ∃ p, objects m !! r = Some p ∧ guild_id p = g.

(** ** Sample data *)

Definition song_a : Track := mkTrack "Song A" "https://cdn.example/a" "https://example/a" (Some 180) 7.
Definition song_b : Track := mkTrack "Song B" "https://cdn.example/b" "https://example/b" (Some 200) 7.
Definition song_c : Track := mkTrack "Song C" "https://cdn.example/c" "https://example/c" None 8.

(** Hosts: one where ffmpeg always starts, one where it never does; one
    where cleanup is always clean, one where the source was released
    before. *)
Definition always_spawns : Track -> bool := fun _ => true.
Definition never_spawns : Track -> bool := fun _ => false.
Definition spawns_except_a : Track -> bool := fun t => bool_decide (t ≠ song_a).
Definition cleanup_clean : Track -> CleanupResult := fun _ => CleanupOk.
Definition cleanup_released : Track -> CleanupResult := fun _ => CleanupValueError.

(** All voice clients connected and idle; all disconnected. *)
Definition voices_online : VoiceRef -> Voice.VoiceClient := fun _ => Voice.fresh.
Definition voices_offline : VoiceRef -> Voice.VoiceClient := fun _ => Voice.offline.

(** Guild 1, voice client 0 bound and playing [song_a], [song_b] waiting. *)
Definition world_playing_a : World :=
  run_events always_spawns cleanup_clean
    [SetVoice 0%nat; Enqueue song_a; Enqueue song_b; Resume]
    (new_world 1 "ffmpeg" voices_online).

(** The same start on a host where ffmpeg cannot be started for
    [song_a]. *)
Definition world_failed_a : World :=
  run_events spawns_except_a cleanup_clean
    [SetVoice 0%nat; Enqueue song_a; Enqueue song_b; Resume]
    (new_world 1 "ffmpeg" voices_online).

(** Three tracks enqueued with client 0 connected; "Song A" is skipped
    while it plays, and the [after_play] callback of its stopped player
    reaches the event loop once "Song B" has started. *)
Definition world_skipped_abc : World :=
  run_events always_spawns cleanup_clean
    [SetVoice 0%nat; Enqueue song_a; Enqueue song_b; Enqueue song_c;
     Resume; Skip; Resume; AfterPlay; Resume]
    (new_world 1 "ffmpeg" voices_online).


(** One track enqueued before any voice client is bound. *)
Definition world_unbound_a : World :=
  run_events always_spawns cleanup_clean [Enqueue song_a]
    (new_world 1 "ffmpeg" voices_online).

(** The same session with the player paused. *)
Definition world_paused_a : World :=
  apply_event always_spawns cleanup_clean (VoicePause 0%nat) world_playing_a.

(** ** What every state of a session satisfies

    By program point of the loop: what [current] is, how the log of
    started tracks relates to the log of cleaned sources, and, while the
    loop sleeps on [queue_event], that a cleared event means an empty
    deque. *)
Definition loop_inv (w : World) : Prop :=
  match loop_task (engine w) with
  | AtStart | AwaitSleep _ =>
      current (engine w) = None ∧ started w = cleaned w
  | AwaitQueue =>
      current (engine w) = None ∧ started w = cleaned w
      ∧ (queue_event (engine w) = false → pending (engine w) = [])
  | AwaitNext t =>
      current (engine w) = Some t ∧ started w = cleaned w ++ [t]
  | Returned | Raised _ =>
      started w = cleaned w ∨ ∃ t, started w = cleaned w ++ [t]
  end.

(** No voice client is connected. *)
Definition all_offline (w : World) : Prop :=
  ∀ r, Voice.is_connected (voices w r) = false.

Definition is_connect (ev : Event) : bool :=
  match ev with VoiceConnect _ => true | _ => false end.

(** Nothing was started, nothing is being played, no client is connected. *)
Definition offline_inv (w : World) : Prop :=
  all_offline w
  ∧ started w = []
  ∧ current (engine w) = None
  ∧ ∀ t, loop_task (engine w) ≠ AwaitNext t.

(** ** The guards of the commands, lines 169-199 and 271-288

    What the guards read: the configured ids ([self.config.get_int]), the
    channels of the guild ([guild.get_channel]), and the author. *)

Record Settings := mkSettings {
  music_channel_id : Z;
  dj_role_id : Z;
}.

Record Channel := mkChannel {
  is_guild_channel : bool;     (* isinstance(_, discord.abc.GuildChannel) *)
  is_text_channel : bool;      (* isinstance(_, discord.TextChannel) *)
  parent_id : option Z;        (* getattr(_, "parent_id", None) *)
  mention : string;
}.

(** A guild, as far as [get_channel] goes. *)
Abbreviation Guild := (gmap Z Channel).

(** The author of a command or of an interaction: whether it is a
    [discord.Member], and the ids of its roles. *)
Record Author := mkAuthor {
  is_member : bool;
  roles : list Z;
}.

(** Lines 169-171. *)
Definition dj_allowed (cfg : Settings) (member : Author) : bool :=
  (dj_role_id cfg =? 0) || existsb (fun role => role =? dj_role_id cfg) (roles member).

(** Truth value of an [Optional[str]]. *)
Definition truthy (s : option string) : bool :=
  match s with
  | Some s => bool_decide (s ≠ "")
  | None => false
  end.

(** Truth value of an [Optional[int]]. *)
Definition nonzero (n : option Z) : bool :=
  match n with
  | Some n => negb (n =? 0)
  | None => false
  end.

(** Lines 173-199. *)
Definition check_music_channel (cfg : Settings) (guild : option Guild)
    (channel_id : option Z) (channel_obj : option Channel) : bool * option string :=
  let allowed_id := music_channel_id cfg in
  if allowed_id =? 0 then (true, None)
  else if bool_decide (channel_id = Some allowed_id) then (true, None)
  else
    let channel_obj :=
      match channel_obj, guild, channel_id with
      | None, Some g, Some cid =>
          if nonzero channel_id then
            match g !! cid with
            | Some resolved =>
                if is_guild_channel resolved then Some resolved else None
            | None => None
            end
          else None
      | _, _, _ => channel_obj
      end in
    let parent :=
      match channel_obj with
      | Some ch => parent_id ch
      | None => None
      end in
    if bool_decide (parent = Some allowed_id) then (true, None)
    else
      let plain := "<#" +:+ pretty allowed_id +:+ ">" in
      let shown :=
        match guild with
        | Some g =>
            match g !! allowed_id with
            | Some allowed_channel =>
                if is_text_channel allowed_channel
                then mention allowed_channel else plain
            | None => plain
            end
        | None => plain
        end in
      (false, Some ("Musikbefehle sind nur in " +:+ shown +:+ " erlaubt.")).

(** What a handler gets: [ctx.guild], the id of [ctx.channel] and the
    channel itself, the author, [ctx.voice_client] (for an interaction:
    [interaction.guild], [interaction.channel_id], [interaction.user],
    [guild.voice_client]). *)
Record Ctx := mkCtx {
  ctx_guild : option Guild;
  ctx_channel_id : option Z;
  ctx_channel : Channel;
  ctx_author : Author;
  ctx_voice_client : option VoiceRef;
}.

(** Lines 201-211: [None] when the command may go on, else the message
    that was sent. *)
Definition ensure_music_channel_ctx (cfg : Settings) (ctx : Ctx) : option string :=
  let channel :=
    if is_guild_channel (ctx_channel ctx) then Some (ctx_channel ctx) else None in
  let '(allowed, message) :=
    check_music_channel cfg (ctx_guild ctx) (ctx_channel_id ctx) channel in
  if negb allowed && truthy message then message else None.

(** Lines 277-279: [guild.get_channel(interaction.channel_id)] when the
    id is set. *)
Definition interaction_channel (guild : Guild) (channel_id : option Z) : option Channel :=
  match channel_id with
  | Some cid => if nonzero channel_id then guild !! cid else None
  | None => None
  end.

(** Lines 271-288: the guild, the member and the error. *)
Definition validate_interaction_member (cfg : Settings) (ctx : Ctx)
    : option Guild * option Author * option string :=
  match ctx_guild ctx with
  | None => (None, None, Some "Diese Aktion funktioniert nur in einer Guild.")
  | Some guild =>
      let '(allowed, message) :=
        check_music_channel cfg (Some guild) (ctx_channel_id ctx)
          (interaction_channel guild (ctx_channel_id ctx)) in
      if negb allowed then (Some guild, None, message)
      else if negb (is_member (ctx_author ctx)) then
        (Some guild, None,
         Some "Diese Aktion funktioniert nur innerhalb eines Servers.")
      else if negb (dj_allowed cfg (ctx_author ctx)) then
        (Some guild, Some (ctx_author ctx), Some "Du hast keine DJ-Rechte.")
      else (Some guild, Some (ctx_author ctx), None)
  end.

(** ** The commands on a running session, lines 495-562

    A command answers with a text and acts on the session of its guild.
    [registered] tells whether [self.players] holds an engine for the
    guild; the engine is then the one of the world. *)

(** The test shared by skip, pause, resume and stop. *)
Definition has_dj_rights (cfg : Settings) (ctx : Ctx) : bool :=
  is_member (ctx_author ctx) && dj_allowed cfg (ctx_author ctx).

(** Lines 495-511. *)
Definition skip_command (cfg : Settings) (ctx : Ctx) (registered : bool)
    (w : World) : string * World :=
  match ensure_music_channel_ctx cfg ctx with
  | Some refusal => (refusal, w)
  | None =>
      if negb (has_dj_rights cfg ctx) then ("Du hast keine DJ-Rechte.", w)
      else if bool_decide (ctx_guild ctx ≠ None) && registered then
        let '(skipped, w') := skip_current w in
        if skipped then ("Track übersprungen.", w') else ("Es läuft nichts.", w')
      else ("Es läuft nichts.", w)
  end.

(** Lines 513-528. *)
Definition pause_command (cfg : Settings) (ctx : Ctx) (w : World) : string * World :=
  match ensure_music_channel_ctx cfg ctx with
  | Some refusal => (refusal, w)
  | None =>
      if negb (has_dj_rights cfg ctx) then ("Du hast keine DJ-Rechte.", w)
      else
        match ctx_voice_client ctx with
        | Some r =>
            if Voice.is_playing (voices w r)
            then ("Pausiert.", upd_voice r Voice.pause w)
            else ("Es läuft nichts zum Pausieren.", w)
        | None => ("Es läuft nichts zum Pausieren.", w)
        end
  end.

(** Lines 530-545. *)
Definition resume_command (cfg : Settings) (ctx : Ctx) (w : World) : string * World :=
  match ensure_music_channel_ctx cfg ctx with
  | Some refusal => (refusal, w)
  | None =>
      if negb (has_dj_rights cfg ctx) then ("Du hast keine DJ-Rechte.", w)
      else
        match ctx_voice_client ctx with
        | Some r =>
            if Voice.is_paused (voices w r)
            then ("Fortgesetzt.", upd_voice r Voice.resume w)
            else ("Es ist nichts pausiert.", w)
        | None => ("Es ist nichts pausiert.", w)
        end
  end.

Section Commands.

Variable spawn_ok : Track -> bool.
Variable cleanup_of : Track -> CleanupResult.

(** Lines 547-562.  Between [voice.stop()] and [clear_queue()] the
    handler awaits [send_debug]; [between] is what happens to the session
    in the meantime.  It is empty when debug logging is off for the guild
    or no log channel is configured: [send_debug] then returns without
    suspending. *)
Definition stop_command (cfg : Settings) (ctx : Ctx) (registered : bool)
    (between : list Event) (w : World) : string * World :=
  match ensure_music_channel_ctx cfg ctx with
  | Some refusal => (refusal, w)
  | None =>
      if negb (has_dj_rights cfg ctx) then ("Du hast keine DJ-Rechte.", w)
      else
        let w1 :=
          match ctx_voice_client ctx with
          | Some r => run_events spawn_ok cleanup_of between (upd_voice r Voice.stop w)
          | None => w
          end in
        let w2 :=
          if bool_decide (ctx_guild ctx ≠ None) && registered
          then clear_queue w1 else w1 in
        ("Queue geleert und Playback gestoppt.", w2)
  end.

(** Lines 443-456.  [voice.disconnect()] is awaited; [between] is what
    happens to the session until the handler goes on. *)
Definition leave_command (cfg : Settings) (ctx : Ctx) (registered : bool)
    (between : list Event) (w : World) : string * World :=
  match ensure_music_channel_ctx cfg ctx with
  | Some refusal => (refusal, w)
  | None =>
      match ctx_voice_client ctx with
      | Some r =>
          if Voice.is_connected (voices w r) then
            let w1 := run_events spawn_ok cleanup_of between
                        (upd_voice r Voice.disconnect w) in
            let w2 :=
              if bool_decide (ctx_guild ctx ≠ None) && registered
              then clear_queue w1 else w1 in
            ("Verbindung getrennt.", w2)
          else ("Ich bin in keinem Voice Channel.", w)
      | None => ("Ich bin in keinem Voice Channel.", w)
      end
  end.

(** Lines 643-660, the button that does the same. *)
Definition handle_leave_button (cfg : Settings) (ctx : Ctx) (registered : bool)
    (between : list Event) (w : World) : option string * World :=
  let '(guild, _, error) := validate_interaction_member cfg ctx in
  if truthy error then (error, w)
  else
    match guild with
    | None => (None, w)
    | Some _ =>
        match ctx_voice_client ctx with
        | Some r =>
            if Voice.is_connected (voices w r) then
              let w1 := run_events spawn_ok cleanup_of between
                          (upd_voice r Voice.disconnect w) in
              (Some "Voice Channel verlassen und Queue geleert.",
               if registered then clear_queue w1 else w1)
            else (Some "Ich bin aktuell mit keinem Channel verbunden.", w)
        | None => (Some "Ich bin aktuell mit keinem Channel verbunden.", w)
        end
    end.

End Commands.

(** ** Debug logging of the music commands, lines 256-269 and 600-622 *)

Inductive DebugMode := ModeOn | ModeOff | ModeToggle.

(** [self.debug_enabled.get(guild.id, False)]. *)
Definition debug_on (debug_enabled : gmap Z bool) (gid : Z) : bool :=
  default false (debug_enabled !! gid).

(** Lines 607-620 of [music_debug], for a command issued in guild [gid]:
    the new dict and the answer.  [log_channel_id] is
    [self.config.get_int("music_log_channel_id")]. *)
Definition music_debug (log_channel_id : Z) (gid : Z) (mode : DebugMode)
    (debug_enabled : gmap Z bool) : gmap Z bool * string :=
  let current := debug_on debug_enabled gid in
  let new_state :=
    match mode with
    | ModeOn => true
    | ModeOff => false
    | ModeToggle => negb current
    end in
  let status := if new_state then "aktiviert" else "deaktiviert" in
  let message := "Musik-Debug wurde " +:+ status +:+ "." in
  let message :=
    if new_state && (log_channel_id =? 0)
    then message +:+ " Hinweis: Setze zuerst einen Musik-Log-Kanal mit /config setchannel music_log <#kanal>."
    else message in
  (<[gid := new_state]> debug_enabled, message).

(** Lines 256-265 of [send_debug]: the channel a debug line goes to, if
    any. *)
Definition send_debug_target (log_channel_id : Z) (debug_enabled : gmap Z bool)
    (guild : option (Z * Guild)) : option Channel :=
  match guild with
  | None => None
  | Some (gid, channels) =>
      if negb (debug_on debug_enabled gid) then None
      else if log_channel_id =? 0 then None
      else
        match channels !! log_channel_id with
        | Some channel => if is_text_channel channel then Some channel else None
        | None => None
        end
  end.

(** ** Telemetry: [HealthMonitor.record_bot_task], utils/health_monitor.py

    [player_loop] reports its waits and plays through [record_bot_task].
    Durations and timestamps are floats; they are kept abstract here, with
    the two comparisons the code makes on durations. *)
Module Monitor.
Section WithFloats.

Context {D T C : Type}.
Variable d_zero : D.                    (* 0.0 *)
Variable d_add : D → D → D.             (* float addition *)
Variable d_gt : D → D → bool.           (* [>] on floats *)
Variable slow : D → bool.               (* [duration_ms > 10_000] *)
Variable c_str : string → C.            (* a string as a context value *)

(** [@dataclass class RollingMetric], lines 11-27. *)
Record RollingMetric := mkMetric {
  count : Z;
  total : D;
  maximum : D;
  last : D;
}.

Definition new_metric : RollingMetric := mkMetric 0 d_zero d_zero d_zero.

Definition add (value : D) (m : RollingMetric) : RollingMetric :=
  mkMetric (count m + 1) (d_add (total m) value)
           (if d_gt value (maximum m) then value else maximum m)
           value.

(** An entry of [_task_recent] or [_events]. *)
Record Entry := mkEntry {
  timestamp : T;
  name : string;
  duration_ms : D;
  context : gmap string C;
}.

(** The part of a [HealthMonitor] that [record_bot_task] writes. *)
Record HealthMonitor := mkMonitor {
  task_metrics : gmap string RollingMetric;
  task_recent : list Entry;         (* deque(maxlen=40) *)
  events : list Entry;              (* deque(maxlen=40) *)
}.

Definition new_monitor : HealthMonitor := mkMonitor ∅ [] [].

(** [appendleft] on a [deque(maxlen=n)]: a full deque drops its last
    element. *)
Definition appendleft (maxlen : nat) (x : Entry) (q : list Entry) : list Entry :=
  take maxlen (x :: q).

(** [context or {}]. *)
Definition or_empty (ctx : option (gmap string C)) : gmap string C :=
  default ∅ ctx.

(** Lines 134-145; the [print] is left out. *)
Definition _record_event (now : T) (nm : string) (duration : D)
    (ctx : option (gmap string C)) (h : HealthMonitor) : HealthMonitor :=
  mkMonitor (task_metrics h) (task_recent h)
            (appendleft 40 (mkEntry now nm duration (or_empty ctx)) (events h)).

(** One call of [record_bot_task] with what it reads from the clock:
    [time.time()] when the entry is made and, for a slow task, when the
    event is made. *)
Record Call := mkCall {
  call_now : T;
  call_now_event : T;
  call_name : string;
  call_duration : D;
  call_context : option (gmap string C);
}.

Definition entry_of (c : Call) : Entry :=
  mkEntry (call_now c) (call_name c) (call_duration c) (or_empty (call_context c)).

(** The entry of the event made for a slow task:
    [{"task": name, **(context or {})}], where a key of the context wins
    over ["task"]. *)
Definition slow_entry_of (c : Call) : Entry :=
  mkEntry (call_now_event c) "task.slow" (call_duration c)
          (or_empty (call_context c) ∪ {["task" := c_str (call_name c)]}).

(** Lines 110-126. *)
Definition record_bot_task (c : Call) (h : HealthMonitor) : HealthMonitor :=
  let metric := default new_metric (task_metrics h !! call_name c) in
  let h1 :=
    mkMonitor (<[call_name c := add (call_duration c) metric]> (task_metrics h))
              (appendleft 40 (entry_of c) (task_recent h))
              (events h) in
  if slow (call_duration c)
  then _record_event (call_now_event c) "task.slow" (call_duration c)
         (Some (or_empty (call_context c) ∪ {["task" := c_str (call_name c)]})) h1
  else h1.

Definition record_all (calls : list Call) (h : HealthMonitor) : HealthMonitor :=
  foldl (fun h c => record_bot_task c h) h calls.

End WithFloats.
End Monitor.

(** ** Sample guild, authors and calls *)

(** Music channel 100, DJ role 55. *)
Definition sample_settings : Settings := mkSettings 100 55.

Definition music_channel : Channel := mkChannel true true None "<#100>".
Definition chat_channel : Channel := mkChannel true true None "<#200>".

Definition sample_guild : Guild :=
  <[200 := chat_channel]> {[100 := music_channel]}.

Definition author_dj : Author := mkAuthor true [3; 55].
Definition author_listener : Author := mkAuthor true [3].

(** Commands issued in the music channel, the guild's client being 0. *)
Definition ctx_dj : Ctx :=
  mkCtx (Some sample_guild) (Some 100) music_channel author_dj (Some 0%nat).
Definition ctx_listener : Ctx :=
  mkCtx (Some sample_guild) (Some 100) music_channel author_listener (Some 0%nat).

(** Two reports of the loop, durations in milliseconds; the second one
    is slow. *)
Definition sample_calls : list (Monitor.Call (D:=Z) (T:=Z) (C:=string)) :=
  [Monitor.mkCall 1000 1000 "music.queue_wait" 250 None;
   Monitor.mkCall 1200 1201 "music.track_play" 185000 None].

(** * Properties *)

(** ** Projections through the updates *)

Lemma voices_upd_voice_same r f w : voices (upd_voice r f w) r = f (voices w r).
Proof. unfold upd_voice; simpl. by rewrite decide_True. Qed.

Lemma voices_upd_voice_other r r' f w :
  r' ≠ r → voices (upd_voice r f w) r' = voices w r'.
Proof. intros Hne. unfold upd_voice; simpl. by rewrite decide_False. Qed.

(** ** The synchronous operations *)

(** C3. [skip_current] answers [True] exactly when the bound voice client
    reports that it is playing; it then stops that client and sets the
    [next] event.  Otherwise it answers [False] and changes nothing.  The
    deque [pending] is the same afterwards in both cases. *)
Theorem skip_current_spec (w : World) :
  ((skip_current w).1 = true ↔
     ∃ r, voice (engine w) = Some r ∧ Voice.is_playing (voices w r) = true)
  ∧ (∀ r, voice (engine w) = Some r → (skip_current w).1 = true →
       voices (skip_current w).2 r = Voice.stop (voices w r)
       ∧ Voice.is_playing (voices (skip_current w).2 r) = false
       ∧ next (engine (skip_current w).2) = true)
  ∧ ((skip_current w).1 = false → (skip_current w).2 = w)
  ∧ pending (engine (skip_current w).2) = pending (engine w)
  ∧ current (engine (skip_current w).2) = current (engine w).
Proof.
  unfold skip_current.
  destruct (voice (engine w)) as [r|] eqn:Hv.
  - destruct (Voice.is_playing (voices w r)) eqn:Hp; cbn [fst snd].
    + split; [split; [eauto | done] |].
      split.
      { intros r' [= <-] _.
        change (voices (upd_engine (set_next true) (upd_voice r Voice.stop w)) r)
          with (voices (upd_voice r Voice.stop w) r).
        rewrite voices_upd_voice_same. done. }
      done.
    + split.
      { split; [done | intros (r' & [= <-] & Hp'); congruence]. }
      split; [intros ? ? ?; done | done].
  - simpl. split.
    { split; [done | intros (r & Hr & _); done]. }
    split; [intros ? ? | done]. done.
Qed.

(** C10. With a voice client bound whose player is paused, [skip_current]
    answers [False] and leaves the whole world as it was: the client is not
    stopped, [next] is not set, [current] and [pending] stay.  The pause
    command on a playing client leads to such a state. *)
Theorem skip_current_paused (w : World) (r : VoiceRef) :
  voice (engine w) = Some r →
  (Voice.is_paused (voices w r) = true → skip_current w = (false, w))
  ∧ (Voice.is_playing (voices w r) = true →
       Voice.is_paused (voices (upd_voice r Voice.pause w) r) = true
       ∧ skip_current (upd_voice r Voice.pause w)
         = (false, upd_voice r Voice.pause w)).
Proof.
  intros Hv.
  assert (Hskip : ∀ w', voice (engine w') = Some r →
            Voice.is_paused (voices w' r) = true → skip_current w' = (false, w')).
  { intros w' Hv' Hp. unfold skip_current. rewrite Hv'.
    unfold Voice.is_paused, Voice.is_playing in *.
    destruct (Voice.audio (voices w' r)) as [p|]; [|done].
    by rewrite Hp. }
  split; [by apply Hskip |].
  intros Hp.
  assert (Hpaused : Voice.is_paused (voices (upd_voice r Voice.pause w) r) = true).
  { rewrite voices_upd_voice_same.
    unfold Voice.is_playing, Voice.is_paused, Voice.pause in *.
    destruct (Voice.audio (voices w r)); [done | discriminate]. }
  split; [done |]. by apply Hskip.
Qed.

(** ** The coroutine *)

Section Properties.

Variable spawn_ok : Track -> bool.
Variable cleanup_of : Track -> CleanupResult.

Local Abbreviation begin_track := (begin_track spawn_ok).
Local Abbreviation wait_for_track := (wait_for_track spawn_ok).
Local Abbreviation loop_top := (loop_top spawn_ok).
Local Abbreviation after_playback := (after_playback spawn_ok cleanup_of).
Local Abbreviation settle := (settle spawn_ok cleanup_of).
Local Abbreviation resume := (resume spawn_ok cleanup_of).
Local Abbreviation apply_event := (apply_event spawn_ok cleanup_of).
Local Abbreviation run_events := (run_events spawn_ok cleanup_of).

Ltac unfold_loop :=
  unfold resume, settle, after_playback, loop_top, wait_for_track,
    begin_track, Voice.play, at_point, log_started, log_cleaned,
    upd_engine, upd_voice in *.

Lemma run_events_snoc evs ev w :
  run_events (evs ++ [ev]) w = apply_event ev (run_events evs w).
Proof. unfold run_events. by rewrite foldl_app. Qed.

Lemma run_events_app evs1 evs2 w :
  run_events (evs1 ++ evs2) w = run_events evs2 (run_events evs1 w).
Proof. unfold run_events. by rewrite foldl_app. Qed.

(** The loop never touches [cleaned] outside [after_playback], and an
    iteration that starts at line 94 cannot end in a cleanup error. *)
Lemma loop_top_cleaned w : cleaned (loop_top w) = cleaned w.
Proof. unfold_loop; simpl. repeat case_match; done. Qed.

Lemma loop_top_no_cleanup_error w :
  loop_task (engine (loop_top w)) ≠ Raised CleanupException.
Proof. unfold_loop; simpl. repeat case_match; simpl; done. Qed.

Lemma loop_top_empty w :
  pending (engine w) = [] →
  loop_top w
  = at_point AwaitQueue
      (upd_engine (set_queue_event false) (upd_engine (set_next false) w)).
Proof. intros Hp. unfold loop_top, wait_for_track; simpl. by rewrite Hp. Qed.

(** C4. [clear_queue] empties [pending] and leaves every other attribute,
    every voice client and both logs as they were.  Called while the loop
    waits for the end of track [a], it does not wake the loop; the track
    is cleaned up and [current] reset only once its playback has ended,
    after which the loop waits for new tracks. *)
Theorem clear_queue_frame (w : World) :
  (pending (engine (clear_queue w)) = []
   ∧ current (engine (clear_queue w)) = current (engine w)
   ∧ voice (engine (clear_queue w)) = voice (engine w)
   ∧ next (engine (clear_queue w)) = next (engine w)
   ∧ queue_event (engine (clear_queue w)) = queue_event (engine w)
   ∧ loop_task (engine (clear_queue w)) = loop_task (engine w)
   ∧ voices (clear_queue w) = voices w
   ∧ started (clear_queue w) = started w
   ∧ cleaned (clear_queue w) = cleaned w)
  ∧ (∀ a, loop_task (engine w) = AwaitNext a → next (engine w) = false →
       resume (clear_queue w) = clear_queue w)
  ∧ (∀ a r, loop_task (engine w) = AwaitNext a →
       cleanup_of a ≠ CleanupOtherError →
       let w' := run_events [TrackEnds r; Resume] (clear_queue w) in
       current (engine w') = None
       ∧ cleaned w' = cleaned w ++ [a]
       ∧ started w' = started w
       ∧ pending (engine w') = []
       ∧ loop_task (engine w') = AwaitQueue).
Proof.
  split; [unfold clear_queue, upd_engine; simpl; repeat split |].
  split.
  - intros a Hl Hn. unfold resume, settle, clear_queue, upd_engine; simpl.
    by rewrite Hl, Hn.
  - intros a r Hl Hc. simpl.
    unfold resume, settle, clear_queue; simpl. rewrite Hl.
    unfold after_playback.
    destruct (cleanup_of a) eqn:Hca; try done;
      rewrite loop_top_empty by done; simpl; done.
Qed.

(** C8. When the playback of [t] has ended and [source.cleanup()] raises
    [ValueError] or [OSError] (the source was released before), the loop
    goes on as after a clean release: it resets [current] and enters the
    next iteration; no cleanup error leaves the coroutine. *)
Theorem cleanup_already_released_tolerated (w : World) (t : Track) :
  loop_task (engine w) = AwaitNext t →
  next (engine w) = true →
  cleanup_of t = CleanupValueError ∨ cleanup_of t = CleanupOSError →
  resume w = loop_top (upd_engine (set_current None) (log_cleaned t w))
  ∧ loop_task (engine (resume w)) ≠ Raised CleanupException
  ∧ cleaned (resume w) = cleaned w ++ [t]
  ∧ (pending (engine w) = [] →
       current (engine (resume w)) = None
       ∧ loop_task (engine (resume w)) = AwaitQueue).
Proof.
  intros Hl Hn Hc.
  assert (Hr : resume w
               = loop_top (upd_engine (set_current None) (log_cleaned t w))).
  { unfold resume, settle. rewrite Hl, Hn. unfold after_playback.
    by destruct Hc as [-> | ->]. }
  rewrite Hr. split; [done |].
  split; [apply loop_top_no_cleanup_error |].
  split; [by rewrite loop_top_cleaned |].
  intros Hp. by rewrite loop_top_empty.
Qed.

Lemma wait_for_track_not_ready w t rest :
  voice_ready w = false →
  pending (engine w) = t :: rest →
  wait_for_track w = at_point (AwaitSleep BACKOFF_SECONDS) w.
Proof.
  intros Hv Hp. unfold wait_for_track, begin_track. rewrite Hp.
  unfold voice_ready in Hv.
  destruct w as [[g f q qe nx c v l] vs st cl]; simpl in *. subst q.
  destruct v as [r|]; [rewrite Hv |]; reflexivity.
Qed.

Lemma resume_not_ready w t rest :
  voice_ready w = false →
  pending (engine w) = t :: rest →
  dequeuing w →
  held w (resume w).
Proof.
  intros Hv Hp Hd.
  assert (Hv' : voice_ready (upd_engine (set_next false) w) = false) by done.
  assert (Hp' : pending (engine (upd_engine (set_next false) w)) = t :: rest)
    by done.
  unfold resume.
  destruct Hd as [-> | [[d ->] | [-> ->]]].
  - unfold loop_top.
    rewrite (wait_for_track_not_ready _ _ _ Hv' Hp'). by repeat split.
  - unfold loop_top.
    rewrite (wait_for_track_not_ready _ _ _ Hv' Hp'). by repeat split.
  - rewrite (wait_for_track_not_ready _ _ _ Hv Hp). by repeat split.
Qed.

Lemma resume_iter_not_ready w t rest n :
  voice_ready w = false →
  pending (engine w) = t :: rest →
  dequeuing w →
  held w (Nat.iter (S n) resume w).
Proof.
  intros Hv Hp Hd. induction n as [|n IH].
  - by apply (resume_not_ready w t rest).
  - change (Nat.iter (S (S n)) resume w)
      with (resume (Nat.iter (S n) resume w)).
    set (w1 := Nat.iter (S n) resume w) in *.
    destruct IH as (Hq & Hc & Hvo & Hvs & Hs & Hcl & Hl).
    assert (H1 : held w1 (resume w1)).
    { apply (resume_not_ready w1 t rest).
      - unfold voice_ready in *. by rewrite Hvo, Hvs.
      - by rewrite Hq.
      - right; left. eauto. }
    destruct H1 as (Hq1 & Hc1 & Hvo1 & Hvs1 & Hs1 & Hcl1 & Hl1).
    repeat split; congruence.
Qed.

Lemma resume_after_sleep_plays w t rest r d :
  loop_task (engine w) = AwaitSleep d →
  pending (engine w) = t :: rest →
  voice (engine w) = Some r →
  Voice.is_connected (voices w r) = true →
  Voice.is_playing (voices w r) = false →
  spawn_ok t = true →
  current (engine (resume w)) = Some t
  ∧ pending (engine (resume w)) = rest
  ∧ started (resume w) = started w ++ [t]
  ∧ loop_task (engine (resume w)) = AwaitNext t
  ∧ Voice.audio (voices (resume w) r) = Some (Voice.mkAudio t false).
Proof.
  intros Hl Hp Hv Hc Hpl Hs.
  unfold resume. rewrite Hl.
  unfold loop_top, wait_for_track; simpl. rewrite Hp.
  unfold begin_track; simpl. rewrite Hv, Hc, Hs.
  unfold Voice.play. rewrite Hc, Hpl. simpl.
  rewrite decide_True by done. done.
Qed.

(** C2. When the loop takes track [t] off [pending] while no voice
    client is bound, or the bound one is not connected, it puts [t] back
    at the head and sleeps [BACKOFF_SECONDS] = 1 second; whatever the
    number of turns, [pending], [current], the voice clients and the log
    of started tracks stay as they were.  Once a connected idle client
    is bound, the next turn makes [t] the current track, hands it to
    that client, and [pending] is one shorter. *)
Theorem hold_on_disconnect (w : World) (t : Track) (rest : list Track) :
  voice_ready w = false →
  pending (engine w) = t :: rest →
  wait_for_track w = at_point (AwaitSleep 1) w
  ∧ (dequeuing w → ∀ n,
       let w' := Nat.iter (S n) resume w in
       (pending (engine w') = t :: rest
        ∧ queue_size w' = queue_size w
        ∧ current (engine w') = current (engine w)
        ∧ voices w' = voices w
        ∧ started w' = started w
        ∧ loop_task (engine w') = AwaitSleep 1)
       ∧ ∀ r, Voice.is_connected (voices w r) = true →
              Voice.is_playing (voices w r) = false →
              spawn_ok t = true →
              let w'' := resume (set_voice r w') in
              current (engine w'') = Some t
              ∧ pending (engine w'') = rest
              ∧ queue_size w'' = queue_size w - 1
              ∧ started w'' = started w ++ [t]
              ∧ loop_task (engine w'') = AwaitNext t
              ∧ Voice.audio (voices w'' r) = Some (Voice.mkAudio t false)).
Proof.
  intros Hv Hp.
  split; [by apply (wait_for_track_not_ready w t rest) |].
  intros Hd n w'.
  destruct (resume_iter_not_ready w t rest n Hv Hp Hd)
    as (Hq & Hc & Hvo & Hvs & Hs & Hcl & Hl).
  fold w' in Hq, Hc, Hvo, Hvs, Hs, Hcl, Hl.
  split.
  { unfold queue_size. rewrite Hq, Hp. by repeat split. }
  intros r Hcon Hpl Hsp w''.
  destruct (resume_after_sleep_plays (set_voice r w') t rest r BACKOFF_SECONDS)
    as (H1 & H2 & H3 & H4 & H5); simpl; try done.
  - by rewrite Hq.
  - by rewrite Hvs.
  - by rewrite Hvs.
  - fold w'' in H1, H2, H3, H4, H5.
    repeat split; try done.
    + unfold queue_size. rewrite H2, Hp. simpl length. lia.
    + rewrite H3. unfold set_voice, upd_engine; simpl. by rewrite Hs.
Qed.


(** *** Termination of the coroutine *)

Lemma apply_event_raised ev w e :
  loop_task (engine w) = Raised e →
  loop_task (engine (apply_event ev w)) = Raised e
  ∧ started (apply_event ev w) = started w.
Proof.
  intros Hl. destruct ev; simpl; try done.
  - unfold skip_current. repeat case_match; done.
  - unfold resume. by rewrite Hl.
  - unfold cancel. by rewrite Hl.
  - by case_match.
  - by case_match.
Qed.

(** Once an exception has left the coroutine, nothing is played any
    more, whatever happens to the session. *)
Lemma raised_is_final evs w e :
  loop_task (engine w) = Raised e →
  loop_task (engine (run_events evs w)) = Raised e
  ∧ started (run_events evs w) = started w.
Proof.
  revert w. induction evs as [|ev evs IH]; intros w Hl; [done |].
  destruct (apply_event_raised ev w e Hl) as [Hl' Hs'].
  destruct (IH _ Hl') as [Hl'' Hs'']. simpl.
  split; [done | congruence].
Qed.

Lemma begin_track_start_failure w t r :
  voice (engine w) = Some r →
  Voice.is_connected (voices w r) = true →
  spawn_ok t = false ∨ Voice.is_playing (voices w r) = true →
  begin_track t w
  = at_point (Raised ClientException) (upd_engine (set_current (Some t)) w).
Proof.
  intros Hv Hc Hf. unfold begin_track. rewrite Hv, Hc.
  destruct (spawn_ok t); [| done].
  destruct Hf as [Hf | Hf]; [done |].
  unfold Voice.play; simpl. by rewrite Hc, Hf.
Qed.

(** C6, as the code has it.  Cancelling the task while it is suspended
    at [queue_event.wait()], [next.wait()] or [asyncio.sleep(1)] ends
    the coroutine through [except asyncio.CancelledError: pass]: no
    exception leaves it and no later turn of the scheduler moves it.
    The handler does nothing else: voice clients, sources, [current] and
    [pending] are as before the cancellation. *)
Theorem cancel_terminates_loop (w : World) :
  suspended (loop_task (engine w)) = true →
  cancel w = at_point Returned w
  ∧ loop_task (engine (cancel w)) = Returned
  ∧ (∀ n, Nat.iter n resume (cancel w) = cancel w)
  ∧ voices (cancel w) = voices w
  ∧ cleaned (cancel w) = cleaned w
  ∧ started (cancel w) = started w
  ∧ current (engine (cancel w)) = current (engine w)
  ∧ pending (engine (cancel w)) = pending (engine w).
Proof.
  intros Hs.
  assert (Hc : cancel w = at_point Returned w).
  { unfold cancel. by destruct (loop_task (engine w)). }
  rewrite Hc. repeat split.
  induction n as [|n IH]; [done |].
  simpl. rewrite IH. done.
Qed.


(** *** Order of playback *)

Lemma begin_track_fifo arrived t w :
  started w ++ t :: pending (engine w) = arrived →
  fifo_inv arrived (begin_track t w).
Proof.
  intros H. unfold begin_track.
  assert (Hback : fifo_inv arrived
            (at_point (AwaitSleep BACKOFF_SECONDS)
               (upd_engine (fun p => set_pending (t :: pending p) p) w))).
  { exists []. by split. }
  destruct (voice (engine w)) as [r|]; [| done].
  destruct (Voice.is_connected (voices w r)); [| done].
  assert (Hfail : fifo_inv arrived
            (at_point (Raised ClientException)
               (upd_engine (set_current (Some t)) w))).
  { exists [t]. by split. }
  destruct (spawn_ok t); [| done].
  destruct (Voice.play _ t); [| done].
  exists []. simpl. split; [| done]. by rewrite <- app_assoc.
Qed.

Lemma wait_for_track_fifo arrived w :
  started w ++ pending (engine w) = arrived →
  fifo_inv arrived (wait_for_track w).
Proof.
  intros H. unfold wait_for_track.
  destruct (pending (engine w)) as [|t rest] eqn:Hp.
  - exists []. simpl. rewrite Hp. by split.
  - by apply begin_track_fifo.
Qed.

Lemma loop_top_fifo arrived w :
  started w ++ pending (engine w) = arrived →
  fifo_inv arrived (loop_top w).
Proof. intros H. by apply wait_for_track_fifo. Qed.

Lemma after_playback_fifo arrived t w :
  started w ++ pending (engine w) = arrived →
  fifo_inv arrived (after_playback t w).
Proof.
  intros H. unfold after_playback.
  destruct (cleanup_of t); try by apply loop_top_fifo.
  exists []. by split.
Qed.

Lemma settle_fifo arrived w :
  fifo_inv arrived w → fifo_inv arrived (settle w).
Proof.
  intros Hinv. unfold settle.
  destruct (loop_task (engine w)) eqn:Hl; try done.
  destruct (next (engine w)); [| done].
  destruct Hinv as (lost & H & Hlost). rewrite Hl in Hlost.
  rewrite (Hlost eq_refl) in H. by apply after_playback_fifo.
Qed.

Lemma resume_fifo arrived w :
  fifo_inv arrived w → fifo_inv arrived (resume w).
Proof.
  intros Hinv. unfold resume.
  destruct (loop_task (engine w)) eqn:Hl; try done.
  - destruct Hinv as (lost & H & Hlost). rewrite Hl in Hlost.
    rewrite (Hlost eq_refl) in H. by apply loop_top_fifo.
  - destruct (queue_event (engine w)); [| done].
    apply settle_fifo.
    destruct Hinv as (lost & H & Hlost). rewrite Hl in Hlost.
    rewrite (Hlost eq_refl) in H. by apply wait_for_track_fifo.
  - destruct Hinv as (lost & H & Hlost). rewrite Hl in Hlost.
    rewrite (Hlost eq_refl) in H. by apply loop_top_fifo.
  - by apply settle_fifo.
Qed.

Lemma fifo_inv_frame arrived w w' :
  started w' = started w →
  pending (engine w') = pending (engine w) →
  (is_raised (loop_task (engine w')) = false →
   is_raised (loop_task (engine w)) = false) →
  fifo_inv arrived w → fifo_inv arrived w'.
Proof.
  intros Hs Hp Hl (lost & H & Hlost). exists lost.
  rewrite Hs, Hp. split; [done | auto].
Qed.

Lemma apply_event_fifo arrived ev w :
  ev ≠ Clear →
  fifo_inv arrived w →
  fifo_inv (arrived ++ enqueued_of [ev]) (apply_event ev w).
Proof.
  intros Hne Hinv.
  destruct ev; simpl; rewrite ?app_nil_r; try done;
    try (by apply (fifo_inv_frame arrived w)).
  - destruct Hinv as (lost & H & Hlost). exists lost. simpl.
    split; [| done]. rewrite <- H. by rewrite <- !app_assoc.
  - apply (fifo_inv_frame arrived w); try done;
      unfold skip_current; repeat case_match; done.
  - by apply resume_fifo.
  - apply (fifo_inv_frame arrived w); try done;
      unfold cancel; destruct (loop_task (engine w)) eqn:Hl;
      simpl; rewrite ?Hl; done.
  - apply (fifo_inv_frame arrived w); try case_match; done.
  - apply (fifo_inv_frame arrived w); try case_match; done.
Qed.

Lemma run_events_fifo evs w :
  Clear ∉ evs →
  fifo_inv [] w →
  fifo_inv (enqueued_of evs) (run_events evs w).
Proof.
  induction evs as [|ev evs IH] using rev_ind; intros Hc Hinv; [done |].
  rewrite run_events_snoc. unfold enqueued_of. rewrite omap_app.
  apply not_elem_of_app in Hc as [Hc1 Hc2].
  apply not_elem_of_cons in Hc2 as [Hc2 _].
  apply apply_event_fifo; [done |].
  by apply IH.
Qed.


Lemma run_enqueues ts w :
  let w' := run_events (map Enqueue ts) w in
  pending (engine w') = pending (engine w) ++ ts
  ∧ loop_task (engine w') = loop_task (engine w)
  ∧ voice (engine w') = voice (engine w)
  ∧ current (engine w') = current (engine w)
  ∧ voices w' = voices w
  ∧ started w' = started w.
Proof.
  revert w. induction ts as [|t ts IH]; intros w; simpl.
  - by rewrite app_nil_r.
  - destruct (IH (add_track t w)) as (H1 & H2 & H3 & H4 & H5 & H6).
    simpl in *. rewrite H1, H2, H3, H4, H5, H6.
    by rewrite <- app_assoc.
Qed.

Lemma loop_top_starts w r t rest :
  voice (engine w) = Some r →
  voices w r = Voice.mkVoice true None →
  pending (engine w) = t :: rest →
  spawn_ok t = true →
  playing_on r t (loop_top w)
  ∧ pending (engine (loop_top w)) = rest
  ∧ started (loop_top w) = started w ++ [t].
Proof.
  intros Hv Hvs Hp Hs.
  unfold loop_top, wait_for_track; simpl. rewrite Hp.
  unfold begin_track; simpl. rewrite Hv, Hvs, Hs. simpl.
  unfold playing_on; simpl. rewrite decide_True by done. done.
Qed.

Lemma resume_track_ended w r t :
  playing_on r t w →
  cleanup_of t ≠ CleanupOtherError →
  ∃ w1, resume (apply_event (TrackEnds r) w) = loop_top w1
        ∧ voice (engine w1) = Some r
        ∧ voices w1 r = Voice.mkVoice true None
        ∧ pending (engine w1) = pending (engine w)
        ∧ started w1 = started w
        ∧ current (engine w1) = None.
Proof.
  intros (Hl & Hv & Hvs & Hc) Hcl.
  exists (upd_engine (set_current None)
            (log_cleaned t (apply_event (TrackEnds r) w))).
  split.
  - unfold resume, settle; simpl. rewrite Hl. unfold after_playback.
    by destruct (cleanup_of t).
  - simpl. rewrite decide_True by done. rewrite Hvs. done.
Qed.

(** With a connected client, the tracks that wait are started one after
    the other, each when its predecessor has ended. *)
Lemma play_out_drains r rest : ∀ t w,
  playing_on r t w →
  pending (engine w) = rest →
  (∀ x, x ∈ t :: rest → spawn_ok x = true ∧ cleanup_of x ≠ CleanupOtherError) →
  let w' := run_events (play_out r (t :: rest)) w in
  started w' = started w ++ rest
  ∧ pending (engine w') = []
  ∧ current (engine w') = None
  ∧ loop_task (engine w') = AwaitQueue.
Proof.
  induction rest as [|t1 rest IH]; intros t w Hplay Hp Hok.
  - destruct (resume_track_ended w r t Hplay) as (w1 & Hr & Hv & Hvs & Hp1 & Hs1 & Hc1).
    { apply Hok. by left. }
    unfold play_out; simpl.
    fold (apply_event (TrackEnds r) w). rewrite Hr.
    rewrite loop_top_empty by congruence. simpl.
    rewrite app_nil_r. rewrite Hs1, Hc1. repeat split; congruence.
  - destruct (resume_track_ended w r t Hplay) as (w1 & Hr & Hv & Hvs & Hp1 & Hs1 & Hc1).
    { apply Hok. by left. }
    destruct (loop_top_starts w1 r t1 rest) as (Hplay' & Hp' & Hs'); try done.
    { congruence. }
    { apply Hok. right. by left. }
    change (play_out r (t :: t1 :: rest))
      with ([TrackEnds r; Resume] ++ play_out r (t1 :: rest)).
    rewrite run_events_app.
    change (run_events [TrackEnds r; Resume] w)
      with (resume (apply_event (TrackEnds r) w)).
    rewrite Hr.
    destruct (IH t1 (loop_top w1) Hplay' Hp') as (H1 & H2 & H3 & H4).
    { intros x Hx. apply Hok. by right. }
    repeat split; try done.
    rewrite H1, Hs', Hs1. by rewrite <- app_assoc.
Qed.

(** X19.  The engine never reorders.  From the creation of the engine
    on and as long as the queue is not cleared, the tracks handed to the
    voice client are, in order, a prefix of the tracks that arrived
    through [add_track], and, unless an exception has left the coroutine,
    those that wait in [pending] are the rest, in arrival order.  In the
    session where a connected idle client is bound first, the tracks [ts]
    are all enqueued before the first turn of the loop and each plays to
    its end, they are started in exactly that order and the loop ends up
    waiting for new tracks with [pending] empty. *)
Theorem fifo_playback_order (gid : Z) (path : string)
    (vs : VoiceRef → Voice.VoiceClient) :
  (∀ evs, Clear ∉ evs →
     let w := run_events evs (new_world gid path vs) in
     started w `prefix_of` enqueued_of evs
     ∧ (is_raised (loop_task (engine w)) = false →
        started w ++ pending (engine w) = enqueued_of evs))
  ∧ (∀ r ts, vs r = Voice.fresh →
     (∀ t, t ∈ ts → spawn_ok t = true ∧ cleanup_of t ≠ CleanupOtherError) →
     let w := run_events (SetVoice r :: map Enqueue ts ++ Resume :: play_out r ts)
                (new_world gid path vs) in
     started w = ts
     ∧ pending (engine w) = []
     ∧ current (engine w) = None
     ∧ loop_task (engine w) = AwaitQueue).
Proof.
  split.
  - intros evs Hc w.
    destruct (run_events_fifo evs (new_world gid path vs) Hc) as (lost & H & Hlost).
    { exists []. by split. }
    fold w in H, Hlost. split.
    + exists (lost ++ pending (engine w)). by rewrite <- H.
    + intros Hr. rewrite (Hlost Hr) in H. done.
  - intros r ts Hvs Hok w. subst w.
    change (SetVoice r :: map Enqueue ts ++ Resume :: play_out r ts)
      with ([SetVoice r] ++ map Enqueue ts ++ [Resume] ++ play_out r ts).
    rewrite !run_events_app.
    set (w0 := run_events [SetVoice r] (new_world gid path vs)).
    destruct (run_enqueues ts w0) as (Hp & Hl & Hv & Hc & Hvo & Hs).
    set (w1 := run_events (map Enqueue ts) w0) in *.
    change (run_events [Resume] w1) with (resume w1).
    assert (Hres : resume w1 = loop_top w1).
    { unfold resume. by rewrite Hl. }
    rewrite Hres.
    destruct ts as [|t rest].
    + rewrite loop_top_empty by done. done.
    + destruct (loop_top_starts w1 r t rest) as (Hplay & Hp' & Hs'); try done.
      { by rewrite Hvo. }
      { apply Hok. by left. }
      destruct (play_out_drains r rest t (loop_top w1) Hplay Hp' Hok)
        as (H1 & H2 & H3 & H4).
      repeat split; try done.
      rewrite H1, Hs', Hs. done.
Qed.


(** *** [current] and [pending] *)










End Properties.

(** ** Failure to start a track *)

(** C5 does not hold on the code.  On a host where ffmpeg cannot be
    started for "Song A", with "Song B" waiting behind it and a connected
    client bound: the exception of line 115 leaves the coroutine (only
    [CancelledError] is caught), [current] stays on "Song A", and no
    later event makes the loop play "Song B" or anything else. *)
Theorem start_failure_ends_playback :
  loop_task (engine world_failed_a) = Raised ClientException
  ∧ current (engine world_failed_a) = Some song_a
  ∧ pending (engine world_failed_a) = [song_b]
  ∧ spawns_except_a song_b = true
  ∧ ∀ evs,
      started (run_events spawns_except_a cleanup_clean evs world_failed_a) = []
      ∧ loop_task (engine (run_events spawns_except_a cleanup_clean evs world_failed_a))
        = Raised ClientException.
Proof.
  repeat split.
  - by destruct (raised_is_final spawns_except_a cleanup_clean evs
                   world_failed_a ClientException eq_refl) as [_ ->].
  - by destruct (raised_is_final spawns_except_a cleanup_clean evs
                   world_failed_a ClientException eq_refl) as [-> _].
Qed.

(** ** A skip followed by the late callback *)

(** C1 does not hold on the code.  With client 0 connected throughout,
    "Song A", "Song B" and "Song C" are enqueued; "Song A" is skipped
    while it plays.  [skip_current] sets [next] itself (line 74) and the
    [after_play] callback of the stopped player sets it again (lines
    125-128): arriving after "Song B" has started, the second signal makes
    the loop take "Song B" for finished and call [voice.play] for
    "Song C" on the client that still plays.  The exception leaves the
    coroutine: "Song C" is off [pending] and is never played, whatever
    happens later. *)
Theorem skip_then_callback_loses_track :
  Voice.is_connected (voices world_skipped_abc 0%nat) = true
  ∧ started world_skipped_abc = [song_a; song_b]
  ∧ pending (engine world_skipped_abc) = []
  ∧ current (engine world_skipped_abc) = Some song_c
  ∧ loop_task (engine world_skipped_abc) = Raised ClientException
  ∧ ∀ evs,
      started (run_events always_spawns cleanup_clean evs world_skipped_abc)
      = [song_a; song_b].
Proof.
  repeat split.
  intros evs.
  by destruct (raised_is_final always_spawns cleanup_clean evs
                 world_skipped_abc ClientException eq_refl) as [_ ->].
Qed.

(** ** Cancellation releases nothing *)

(** C6 as stated fails: cancelled while it waits for the end of "Song A",
    the loop ends, but the source of "Song A" is not cleaned up, the voice
    client goes on playing it and [current] still refers to it. *)
Lemma cancel_releases_nothing :
  suspended (loop_task (engine world_playing_a)) = true
  ∧ loop_task (engine world_playing_a) = AwaitNext song_a
  ∧ voice (engine world_playing_a) = Some 0%nat
  ∧ loop_task (engine (cancel world_playing_a)) = Returned
  ∧ ¬ (song_a ∈ cleaned (cancel world_playing_a)
       ∨ Voice.is_playing (voices (cancel world_playing_a) 0%nat) = false
       ∨ current (engine (cancel world_playing_a)) = None).
Proof.
  repeat split.
  intros [H | [H | H]]; [| discriminate H | discriminate H].
  by apply elem_of_nil in H.
Qed.

(** ** The registry *)

Lemma get_player_registry_inv path gid m :
  registry_inv m → registry_inv (get_player path gid m).2.
Proof.
  intros Hinv. unfold get_player.
  destruct (players m !! gid) as [r|] eqn:Hg; [done |].
  intros g r'. simpl. intros Hl.
  destruct (decide (gid = g)) as [-> | Hne].
  - rewrite lookup_insert_eq in Hl. injection Hl as <-.
    exists (new_player g path). split; [| done].
    by rewrite lookup_app_r, Nat.sub_diag.
  - rewrite lookup_insert_ne in Hl by done.
    destruct (Hinv g r' Hl) as (p & Hp & Hgp).
    exists p. split; [| done]. by apply lookup_app_l_Some.
Qed.

Lemma lookups_registry_inv calls :
  registry_inv (lookups calls new_music).
Proof.
  induction calls as [|c calls IH] using rev_ind.
  - intros g r Hl. simpl in Hl. by rewrite lookup_empty in Hl.
  - unfold lookups. rewrite foldl_app. simpl.
    by apply get_player_registry_inv.
Qed.

(** C9. [get_player] is idempotent: a second call for the same guild
    returns the reference of the first call and changes neither the
    registry nor any engine.  The engine is created by the first call for
    a guild id (a fresh object in its initial state) and by no other; in a
    registry built by calls of [get_player], different guilds have
    different engines. *)
Theorem get_player_idempotent (path path' : string) (gid : Z) (m : Music) :
  get_player path' gid (get_player path gid m).2 = get_player path gid m
  ∧ players (get_player path gid m).2 !! gid = Some (get_player path gid m).1
  ∧ (players m !! gid = None →
       (get_player path gid m).1 = length (objects m)
       ∧ objects (get_player path gid m).2 = objects m ++ [new_player gid path]
       ∧ objects (get_player path gid m).2 !! (get_player path gid m).1
         = Some (new_player gid path))
  ∧ (∀ r, players m !! gid = Some r → get_player path gid m = (r, m))
  ∧ (∀ calls g1 g2 r1 r2,
       players (lookups calls new_music) !! g1 = Some r1 →
       players (lookups calls new_music) !! g2 = Some r2 →
       g1 ≠ g2 → r1 ≠ r2).
Proof.
  unfold get_player.
  destruct (players m !! gid) as [r|] eqn:Hg; simpl.
  - rewrite Hg. repeat split; try done.
    + by intros r' [= <-].
    + intros calls g1 g2 r1 r2 H1 H2 Hne ->.
      destruct (lookups_registry_inv calls g1 r2 H1) as (p1 & Hp1 & <-).
      destruct (lookups_registry_inv calls g2 r2 H2) as (p2 & Hp2 & <-).
      congruence.
  - rewrite lookup_insert_eq. repeat split; try done.
    + by rewrite lookup_app_r, Nat.sub_diag.
    + intros calls g1 g2 r1 r2 H1 H2 Hne ->.
      destruct (lookups_registry_inv calls g1 r2 H1) as (p1 & Hp1 & <-).
      destruct (lookups_registry_inv calls g2 r2 H2) as (p2 & Hp2 & <-).
      congruence.
Qed.

(** * Concrete instances *)

(** "Song A", "Song B", "Song C" with the client connected from the
    start: started in that order. *)
Lemma fifo_playback_order_witness :
  (Clear ∉ [SetVoice 0%nat; Enqueue song_a; Resume; Skip; Enqueue song_b])
  ∧ voices_online 0%nat = Voice.fresh
  ∧ (∀ t, t ∈ [song_a; song_b; song_c] →
       always_spawns t = true ∧ cleanup_clean t ≠ CleanupOtherError)
  ∧ (started (run_events always_spawns cleanup_clean
                [SetVoice 0%nat; Enqueue song_a; Resume; Skip; Enqueue song_b]
                (new_world 1 "ffmpeg" voices_online))
       `prefix_of` [song_a; song_b])
  ∧ started (run_events always_spawns cleanup_clean
               (SetVoice 0%nat :: map Enqueue [song_a; song_b; song_c]
                  ++ Resume :: play_out 0%nat [song_a; song_b; song_c])
               (new_world 1 "ffmpeg" voices_online))
    = [song_a; song_b; song_c].
Proof.
  assert (Hc : Clear ∉ [SetVoice 0%nat; Enqueue song_a; Resume; Skip; Enqueue song_b]).
  { intros H. repeat (apply elem_of_cons in H as [H | H]; [discriminate H |]).
    by apply elem_of_nil in H. }
  assert (Hok : ∀ t, t ∈ [song_a; song_b; song_c] →
                     always_spawns t = true ∧ cleanup_clean t ≠ CleanupOtherError).
  { intros t _. split; [reflexivity | discriminate]. }
  destruct (fifo_playback_order always_spawns cleanup_clean 1 "ffmpeg" voices_online)
    as [H1 H2].
  split; [exact Hc |]. split; [reflexivity |]. split; [exact Hok |].
  split.
  - exact (proj1 (H1 _ Hc)).
  - exact (proj1 (H2 0%nat [song_a; song_b; song_c] eq_refl Hok)).
Defined.

(** "Song A" enqueued with no client bound: it stays in [pending] through
    three turns of the loop and is started once client 0 is bound. *)
Lemma hold_on_disconnect_witness :
  voice_ready world_unbound_a = false
  ∧ pending (engine world_unbound_a) = [song_a]
  ∧ dequeuing world_unbound_a
  ∧ queue_size (Nat.iter 3 (resume always_spawns cleanup_clean) world_unbound_a) = 1
  ∧ started (Nat.iter 3 (resume always_spawns cleanup_clean) world_unbound_a) = []
  ∧ queue_size (resume always_spawns cleanup_clean
       (set_voice 0%nat
          (Nat.iter 3 (resume always_spawns cleanup_clean) world_unbound_a))) = 0
  ∧ started (resume always_spawns cleanup_clean
       (set_voice 0%nat
          (Nat.iter 3 (resume always_spawns cleanup_clean) world_unbound_a)))
    = [song_a].
Proof.
  assert (Hd : dequeuing world_unbound_a) by (left; reflexivity).
  destruct (hold_on_disconnect always_spawns cleanup_clean world_unbound_a
              song_a [] eq_refl eq_refl) as [_ H].
  destruct (H Hd 2%nat) as [(_ & Hq & _ & _ & Hs & _) Hplay].
  destruct (Hplay 0%nat eq_refl eq_refl eq_refl) as (_ & _ & Hq' & Hs' & _).
  split; [reflexivity |]. split; [reflexivity |]. split; [exact Hd |].
  split; [exact Hq |]. split; [exact Hs |]. split; [exact Hq' | exact Hs'].
Defined.

(** Skipping while "Song A" plays. *)
Lemma skip_current_spec_witness :
  voice (engine world_playing_a) = Some 0%nat
  ∧ Voice.is_playing (voices world_playing_a 0%nat) = true
  ∧ (skip_current world_playing_a).1 = true
  ∧ next (engine (skip_current world_playing_a).2) = true
  ∧ pending (engine (skip_current world_playing_a).2) = [song_b].
Proof.
  destruct (skip_current_spec world_playing_a) as (H1 & H2 & _ & H4 & _).
  assert (Hb : (skip_current world_playing_a).1 = true).
  { apply H1. exists 0%nat. split; reflexivity. }
  destruct (H2 0%nat eq_refl Hb) as (_ & _ & Hn).
  split; [reflexivity |]. split; [reflexivity |]. split; [exact Hb |].
  split; [exact Hn | exact H4].
Defined.

(** Skipping while "Song A" is paused. *)
Lemma skip_current_paused_witness :
  voice (engine world_paused_a) = Some 0%nat
  ∧ Voice.is_paused (voices world_paused_a 0%nat) = true
  ∧ skip_current world_paused_a = (false, world_paused_a).
Proof.
  split; [reflexivity |]. split; [reflexivity |].
  exact (proj1 (skip_current_paused world_paused_a 0%nat eq_refl) eq_refl).
Defined.

(** Clearing the queue while "Song A" plays. *)
Lemma clear_queue_frame_witness :
  loop_task (engine world_playing_a) = AwaitNext song_a
  ∧ next (engine world_playing_a) = false
  ∧ cleanup_clean song_a ≠ CleanupOtherError
  ∧ resume always_spawns cleanup_clean (clear_queue world_playing_a)
    = clear_queue world_playing_a
  ∧ current (engine (run_events always_spawns cleanup_clean
                       [TrackEnds 0%nat; Resume] (clear_queue world_playing_a)))
    = None.
Proof.
  assert (Hc : cleanup_clean song_a ≠ CleanupOtherError) by discriminate.
  destruct (clear_queue_frame always_spawns cleanup_clean world_playing_a)
    as (_ & H1 & H2).
  split; [reflexivity |]. split; [reflexivity |]. split; [exact Hc |].
  split.
  - exact (H1 song_a eq_refl eq_refl).
  - exact (proj1 (H2 song_a 0%nat eq_refl Hc)).
Defined.

(** The source of "Song A" was released before the loop cleans it up. *)
Lemma cleanup_already_released_tolerated_witness :
  loop_task (engine (apply_event always_spawns cleanup_released
                       (TrackEnds 0%nat) world_playing_a)) = AwaitNext song_a
  ∧ next (engine (apply_event always_spawns cleanup_released
                    (TrackEnds 0%nat) world_playing_a)) = true
  ∧ cleanup_released song_a = CleanupValueError
  ∧ loop_task (engine (resume always_spawns cleanup_released
                         (apply_event always_spawns cleanup_released
                            (TrackEnds 0%nat) world_playing_a)))
    ≠ Raised CleanupException.
Proof.
  split; [reflexivity |]. split; [reflexivity |]. split; [reflexivity |].
  exact (proj1 (proj2 (cleanup_already_released_tolerated
                         always_spawns cleanup_released
                         (apply_event always_spawns cleanup_released
                            (TrackEnds 0%nat) world_playing_a)
                         song_a eq_refl eq_refl (or_introl eq_refl)))).
Defined.

(** Cancelling while "Song A" plays. *)
Lemma cancel_terminates_loop_witness :
  suspended (loop_task (engine world_playing_a)) = true
  ∧ loop_task (engine (cancel world_playing_a)) = Returned
  ∧ resume always_spawns cleanup_clean (cancel world_playing_a)
    = cancel world_playing_a.
Proof.
  destruct (cancel_terminates_loop always_spawns cleanup_clean
              world_playing_a eq_refl) as (_ & H1 & H2 & _).
  split; [reflexivity |]. split; [exact H1 | exact (H2 1%nat)].
Defined.


(** Guilds 1 and 2. *)
Lemma get_player_idempotent_witness :
  players new_music !! 1 = None
  ∧ players (lookups [("ffmpeg", 1); ("ffmpeg", 2)] new_music) !! 1 = Some 0%nat
  ∧ players (lookups [("ffmpeg", 1); ("ffmpeg", 2)] new_music) !! 2 = Some 1%nat
  ∧ (get_player "ffmpeg" 1 new_music).1 = 0%nat
  ∧ 0%nat ≠ 1%nat.
Proof.
  destruct (get_player_idempotent "ffmpeg" "ffmpeg" 1 new_music)
    as (_ & _ & H3 & _ & H5).
  split; [reflexivity |]. split; [reflexivity |]. split; [reflexivity |].
  split.
  - exact (proj1 (H3 eq_refl)).
  - apply (H5 [("ffmpeg", 1); ("ffmpeg", 2)] 1 2 0%nat 1%nat);
      [reflexivity | reflexivity | discriminate].
Defined.

(** * Further properties of the engine *)

Section EngineInvariants.

Variable spawn_ok : Track -> bool.
Variable cleanup_of : Track -> CleanupResult.

Local Abbreviation begin_track := (begin_track spawn_ok).
Local Abbreviation wait_for_track := (wait_for_track spawn_ok).
Local Abbreviation loop_top := (loop_top spawn_ok).
Local Abbreviation after_playback := (after_playback spawn_ok cleanup_of).
Local Abbreviation settle := (settle spawn_ok cleanup_of).
Local Abbreviation resume := (resume spawn_ok cleanup_of).
Local Abbreviation apply_event := (apply_event spawn_ok cleanup_of).
Local Abbreviation run_events := (run_events spawn_ok cleanup_of).

(** ** The invariant of the loop *)

Lemma begin_track_loop_inv t w :
  current (engine w) = None → started w = cleaned w →
  loop_inv (begin_track t w).
Proof.
  intros Hc Hs. unfold begin_track.
  assert (Hback : loop_inv
            (at_point (AwaitSleep BACKOFF_SECONDS)
               (upd_engine (fun p => set_pending (t :: pending p) p) w)))
    by done.
  destruct (voice (engine w)) as [r|]; [| done].
  destruct (Voice.is_connected (voices w r)); [| done].
  destruct (spawn_ok t); [| by left].
  destruct (Voice.play _ t); [| by left].
  unfold loop_inv; simpl. by rewrite Hs.
Qed.

Lemma wait_for_track_loop_inv w :
  current (engine w) = None → started w = cleaned w →
  loop_inv (wait_for_track w).
Proof.
  intros Hc Hs. unfold wait_for_track.
  destruct (pending (engine w)) as [|t rest] eqn:Hp.
  - unfold loop_inv; simpl. by rewrite Hp.
  - by apply begin_track_loop_inv.
Qed.

Lemma after_playback_loop_inv t w :
  started w = cleaned w ++ [t] → loop_inv (after_playback t w).
Proof.
  intros Hs. unfold after_playback.
  destruct (cleanup_of t); try (by apply wait_for_track_loop_inv).
  by left.
Qed.

Lemma settle_loop_inv w : loop_inv w → loop_inv (settle w).
Proof.
  intros Hinv. unfold settle.
  destruct (loop_task (engine w)) eqn:Hl; try done.
  destruct (next (engine w)); [| done].
  unfold loop_inv in Hinv. rewrite Hl in Hinv.
  apply after_playback_loop_inv. tauto.
Qed.

Lemma resume_loop_inv w : loop_inv w → loop_inv (resume w).
Proof.
  intros Hinv. unfold resume.
  destruct (loop_task (engine w)) eqn:Hl; try done.
  - unfold loop_inv in Hinv. rewrite Hl in Hinv.
    apply wait_for_track_loop_inv; simpl; tauto.
  - destruct (queue_event (engine w)); [| done].
    unfold loop_inv in Hinv. rewrite Hl in Hinv.
    apply settle_loop_inv, wait_for_track_loop_inv; tauto.
  - unfold loop_inv in Hinv. rewrite Hl in Hinv.
    apply wait_for_track_loop_inv; simpl; tauto.
  - by apply settle_loop_inv.
Qed.

Lemma loop_inv_frame w w' :
  loop_task (engine w') = loop_task (engine w) →
  current (engine w') = current (engine w) →
  started w' = started w →
  cleaned w' = cleaned w →
  (loop_task (engine w) = AwaitQueue →
   queue_event (engine w') = false →
   pending (engine w') = []) →
  loop_inv w → loop_inv w'.
Proof.
  intros Hl Hc Hs Hcl Hq. unfold loop_inv. rewrite Hl, Hc, Hs, Hcl.
  destruct (loop_task (engine w)); try done.
  intros (H1 & H2 & _). auto.
Qed.

Lemma apply_event_loop_inv ev w : loop_inv w → loop_inv (apply_event ev w).
Proof.
  intros Hinv.
  assert (Hq : loop_task (engine w) = AwaitQueue →
               queue_event (engine w) = false → pending (engine w) = []).
  { intros Hl. unfold loop_inv in Hinv. rewrite Hl in Hinv. tauto. }
  destruct ev; simpl.
  - by apply (loop_inv_frame w).
  - unfold skip_current. repeat case_match; try done.
  - by apply (loop_inv_frame w).
  - by apply (loop_inv_frame w).
  - by apply resume_loop_inv.
  - unfold cancel, loop_inv in *.
    destruct (loop_task (engine w)) eqn:Hl; simpl; rewrite ?Hl;
      try tauto; right; exists track; tauto.
  - by apply (loop_inv_frame w).
  - by apply (loop_inv_frame w).
  - case_match; [| done]. by apply (loop_inv_frame w).
  - case_match; [| done]. by apply (loop_inv_frame w).
  - by apply (loop_inv_frame w).
  - by apply (loop_inv_frame w).
  - by apply (loop_inv_frame w).
Qed.

Lemma run_events_loop_inv evs w : loop_inv w → loop_inv (run_events evs w).
Proof.
  revert w. induction evs as [|ev evs IH]; intros w Hinv; [done |].
  simpl. by apply IH, apply_event_loop_inv.
Qed.

Lemma new_world_loop_inv gid path vs : loop_inv (new_world gid path vs).
Proof. by split. Qed.

(** X1. In every state a session can reach from the creation of its
    engine, [current] says what the loop is doing: it is the track whose
    end the loop awaits, and it is [None] while the loop has not started,
    sleeps on [queue_event] or sleeps its backoff.  So a [current] that
    is set means that the loop awaits the end of that track, or that the
    coroutine has ended with the track left in place. *)
Theorem current_follows_loop (gid : Z) (path : string)
    (vs : VoiceRef → Voice.VoiceClient) (evs : list Event) :
  let w := run_events evs (new_world gid path vs) in
  (∀ t, loop_task (engine w) = AwaitNext t → current (engine w) = Some t)
  ∧ (loop_task (engine w) = AtStart ∨ loop_task (engine w) = AwaitQueue
     ∨ (∃ d, loop_task (engine w) = AwaitSleep d) →
     current (engine w) = None)
  ∧ (∀ t, current (engine w) = Some t →
       loop_task (engine w) = AwaitNext t
       ∨ loop_task (engine w) = Returned
       ∨ is_raised (loop_task (engine w)) = true).
Proof.
  intros w.
  pose proof (run_events_loop_inv evs _ (new_world_loop_inv gid path vs)) as H.
  fold w in H. unfold loop_inv in H.
  destruct (loop_task (engine w)) eqn:Hl.
  - split; [done |]. split; [tauto |]. intros t Ht. destruct H; congruence.
  - split; [done |]. split; [tauto |]. intros t Ht. destruct H; congruence.
  - split; [done |]. split; [tauto |]. intros t Ht. destruct H; congruence.
  - destruct H as [Hc Hs]. split; [by intros t [= <-] |].
    split.
    + intros [? | [? | [d ?]]]; done.
    + intros t Ht. left. congruence.
  - split; [done |]. split; [| by right; left].
    intros [? | [? | [d ?]]]; done.
  - split; [done |]. split; [| by right; right].
    intros [? | [? | [d ?]]]; done.
Qed.

(** X2. A track is handed to [voice.play] only after the source of the
    track played before it has received [cleanup()]: in every reachable
    state the tracks whose source received [cleanup()] are, in order, the
    tracks handed to [voice.play], except for at most the last one.  All
    of them have been cleaned while the loop waits for a track or sleeps,
    and while the loop awaits the end of [t], [t] is the one that has
    not.  (Nothing is said of a source whose [voice.play] raised, which
    is in neither log, nor of a cleanup after the coroutine has ended.) *)
Theorem one_source_at_a_time (gid : Z) (path : string)
    (vs : VoiceRef → Voice.VoiceClient) (evs : list Event) :
  let w := run_events evs (new_world gid path vs) in
  cleaned w `prefix_of` started w
  ∧ (length (started w) ≤ S (length (cleaned w)))%nat
  ∧ (∀ t, loop_task (engine w) = AwaitNext t → started w = cleaned w ++ [t])
  ∧ (loop_task (engine w) = AtStart ∨ loop_task (engine w) = AwaitQueue
     ∨ (∃ d, loop_task (engine w) = AwaitSleep d) →
     started w = cleaned w).
Proof.
  intros w.
  pose proof (run_events_loop_inv evs _ (new_world_loop_inv gid path vs)) as H.
  fold w in H. unfold loop_inv in H.
  assert (Hcases : started w = cleaned w ∨ ∃ t, started w = cleaned w ++ [t]).
  { destruct (loop_task (engine w)); try tauto. right. exists track. tauto. }
  split.
  { destruct Hcases as [-> | [t ->]]; [done | by exists [t]]. }
  split.
  { destruct Hcases as [-> | [t ->]]; [lia |].
    rewrite length_app. simpl. lia. }
  split.
  - intros t Hl. rewrite Hl in H. tauto.
  - intros [Hl | [Hl | [d Hl]]]; rewrite Hl in H; tauto.
Qed.

(** X3. No wake-up is lost: in every reachable state in which the loop
    sleeps on [queue_event] while a track waits in [pending], the event
    is set, so the next turn of the loop re-enters [_wait_for_track] and
    takes the head of [pending]. *)
Theorem enqueue_wakes_loop (gid : Z) (path : string)
    (vs : VoiceRef → Voice.VoiceClient) (evs : list Event) :
  let w := run_events evs (new_world gid path vs) in
  loop_task (engine w) = AwaitQueue →
  pending (engine w) ≠ [] →
  queue_event (engine w) = true
  ∧ resume w = settle (wait_for_track w).
Proof.
  intros w Hl Hp.
  pose proof (run_events_loop_inv evs _ (new_world_loop_inv gid path vs)) as H.
  fold w in H. unfold loop_inv in H. rewrite Hl in H.
  destruct H as (_ & _ & Hq).
  assert (He : queue_event (engine w) = true).
  { destruct (queue_event (engine w)); [done |]. by destruct Hp; apply Hq. }
  split; [done |]. unfold resume. by rewrite Hl, He.
Qed.

(** ** Skipping and untimely signals *)

Lemma resume_signalled w t :
  loop_task (engine w) = AwaitNext t →
  next (engine w) = true →
  cleanup_of t ≠ CleanupOtherError →
  resume w = loop_top (upd_engine (set_current None) (log_cleaned t w)).
Proof.
  intros Hl Hn Hc. unfold resume, settle. rewrite Hl, Hn.
  unfold after_playback. by destruct (cleanup_of t).
Qed.

Lemma skip_while_playing w r t :
  playing_on r t w →
  apply_event Skip w = apply_event (TrackEnds r) w.
Proof.
  intros (_ & Hv & Hvs & _). simpl. unfold skip_current.
  rewrite Hv, Hvs. done.
Qed.

(** X4. Skipping advances the queue at once.  When the loop awaits the
    end of [t] on the bound client, [skip_current] followed by one turn
    of the loop releases the source of [t] and, if a track waits, hands
    the head of [pending] to the client and makes it [current]; if none
    waits, the engine is idle ([current] is [None], the loop sleeps on
    [queue_event]). *)
Theorem skip_starts_next_track (w : World) (r : VoiceRef) (t : Track) :
  playing_on r t w →
  cleanup_of t ≠ CleanupOtherError →
  let w' := run_events [Skip; Resume] w in
  cleaned w' = cleaned w ++ [t]
  ∧ (pending (engine w) = [] →
       current (engine w') = None
       ∧ loop_task (engine w') = AwaitQueue
       ∧ started w' = started w)
  ∧ (∀ t1 rest, pending (engine w) = t1 :: rest → spawn_ok t1 = true →
       playing_on r t1 w'
       ∧ pending (engine w') = rest
       ∧ started w' = started w ++ [t1]).
Proof.
  intros Hplay Hc w'.
  assert (Hw' : w' = loop_top (upd_engine (set_current None)
                         (log_cleaned t (apply_event (TrackEnds r) w)))).
  { unfold w'. change (run_events [Skip; Resume] w)
      with (resume (apply_event Skip w)).
    rewrite (skip_while_playing w r t Hplay).
    apply resume_signalled; [| done | done].
    by destruct Hplay as (Hl & _). }
  destruct Hplay as (Hl & Hv & Hvs & Hcur).
  rewrite Hw'. split; [by rewrite loop_top_cleaned |].
  split.
  - intros Hp. by rewrite loop_top_empty.
  - intros t1 rest Hp Hs.
    destruct (loop_top_starts spawn_ok
                (upd_engine (set_current None)
                   (log_cleaned t (apply_event (TrackEnds r) w)))
                r t1 rest) as (H1 & H2 & H3); try done.
    simpl. rewrite decide_True by done. by rewrite Hvs.
Qed.

(** X5. The loop does not check that the client has stopped when [next]
    is set.  If the event is set while the client still plays [t] (the
    callback of an earlier, stopped track arriving late), the next turn of
    the loop releases the source of [t] and resets [current] although the
    client goes on playing; and if another track waits, [voice.play] is
    called on the playing client, raises, and the coroutine ends with that
    track taken off [pending] and never started. *)
Theorem untimely_signal_drops_track (w : World) (r : VoiceRef) (t : Track) :
  playing_on r t w →
  cleanup_of t ≠ CleanupOtherError →
  let w' := run_events [AfterPlay; Resume] w in
  cleaned w' = cleaned w ++ [t]
  ∧ started w' = started w
  ∧ Voice.is_playing (voices w' r) = true
  ∧ (pending (engine w) = [] →
       current (engine w') = None ∧ loop_task (engine w') = AwaitQueue)
  ∧ (∀ t1 rest, pending (engine w) = t1 :: rest →
       loop_task (engine w') = Raised ClientException
       ∧ current (engine w') = Some t1
       ∧ pending (engine w') = rest).
Proof.
  intros (Hl & Hv & Hvs & Hcur) Hc w'.
  assert (Hw' : w' = loop_top (upd_engine (set_current None)
                         (log_cleaned t (apply_event AfterPlay w)))).
  { unfold w'. change (run_events [AfterPlay; Resume] w)
      with (resume (apply_event AfterPlay w)).
    by apply resume_signalled. }
  rewrite Hw'. split; [by rewrite loop_top_cleaned |].
  set (w0 := upd_engine (set_current None)
               (log_cleaned t (apply_event AfterPlay w))).
  assert (Hfail : ∀ t1 rest, pending (engine w) = t1 :: rest →
            loop_top w0
            = at_point (Raised ClientException)
                (upd_engine (set_current (Some t1))
                   (upd_engine (set_pending rest)
                      (upd_engine (set_next false) w0)))).
  { intros t1 rest Hp. unfold loop_top, wait_for_track; simpl. rewrite Hp.
    apply (begin_track_start_failure spawn_ok _ t1 r); simpl; try done.
    - by rewrite Hvs.
    - right. by rewrite Hvs. }
  destruct (pending (engine w)) as [|t1 rest] eqn:Hp.
  - rewrite loop_top_empty by done. simpl. rewrite Hvs. by repeat split.
  - rewrite (Hfail t1 rest eq_refl). simpl. rewrite Hvs.
    split; [done |]. split; [done |]. split; [done |].
    by intros t1' rest' [= <- <-].
Qed.

(** ** Without a connected client *)

Lemma wait_for_track_offline w :
  offline_inv w →
  offline_inv (wait_for_track w)
  ∧ pending (engine (wait_for_track w)) = pending (engine w).
Proof.
  intros (Hoff & Hs & Hc & Hl).
  assert (Hnr : voice_ready w = false).
  { unfold voice_ready. destruct (voice (engine w)); [apply Hoff | done]. }
  destruct (pending (engine w)) as [|t rest] eqn:Hp.
  - unfold wait_for_track. rewrite Hp. by repeat split.
  - rewrite (wait_for_track_not_ready spawn_ok w t rest Hnr Hp).
    by repeat split.
Qed.

Lemma resume_offline w :
  offline_inv w →
  offline_inv (resume w) ∧ pending (engine (resume w)) = pending (engine w).
Proof.
  intros Hinv.
  assert (Htop : offline_inv (loop_top w)
                 ∧ pending (engine (loop_top w)) = pending (engine w)).
  { apply (wait_for_track_offline (upd_engine (set_next false) w)).
    destruct Hinv as (H1 & H2 & H3 & H4). by repeat split. }
  unfold resume. destruct (loop_task (engine w)) eqn:Hl; try done.
  - destruct (queue_event (engine w)); [| done].
    destruct (wait_for_track_offline w Hinv) as [Hinv' Hp'].
    assert (Hset : settle (wait_for_track w) = wait_for_track w).
    { unfold settle.
      destruct (loop_task (engine (wait_for_track w))) eqn:Hl'; try done.
      destruct Hinv' as (_ & _ & _ & Hno). by destruct (Hno track). }
    by rewrite Hset.
  - destruct Hinv as (_ & _ & _ & Hno). by destruct (Hno track).
Qed.

Lemma apply_event_offline ev w :
  is_connect ev = false →
  offline_inv w →
  offline_inv (apply_event ev w)
  ∧ (ev ≠ Clear →
     pending (engine (apply_event ev w)) = pending (engine w) ++ enqueued_of [ev]).
Proof.
  intros Hev Hinv.
  assert (Hvoice : ∀ r f,
            (∀ v, Voice.is_connected (f v) = Voice.is_connected v) →
            offline_inv (upd_voice r f w)).
  { intros r f Hf. destruct Hinv as (H1 & H2 & H3 & H4).
    split; [| done]. intros r'. simpl.
    case_decide; [rewrite Hf |]; apply H1. }
  destruct ev; simpl in *; rewrite ?app_nil_r; try discriminate Hev.
  - (* Enqueue *)
    split; [| done]. destruct Hinv as (H1 & H2 & H3 & H4). by repeat split.
  - (* Skip *)
    split; [| unfold skip_current; by repeat case_match].
    unfold skip_current.
    destruct (voice (engine w)) as [r|]; [| done].
    destruct (Voice.is_playing (voices w r)) eqn:Hp; [| done].
    destruct (Hvoice r Voice.stop) as (H1 & H2 & H3 & H4); [done |].
    by repeat split.
  - (* Clear *)
    split; [| done]. destruct Hinv as (H1 & H2 & H3 & H4). by repeat split.
  - (* SetVoice *)
    split; [| done]. destruct Hinv as (H1 & H2 & H3 & H4). by repeat split.
  - (* Resume *)
    destruct (resume_offline w Hinv) as [H1 H2]. done.
  - (* Cancel *)
    split; [| unfold cancel; by repeat case_match].
    destruct Hinv as (H1 & H2 & H3 & H4).
    unfold cancel. destruct (loop_task (engine w)) eqn:Hl;
      repeat split; simpl; try done; rewrite ?Hl; done.
  - (* AfterPlay *)
    split; [| done]. destruct Hinv as (H1 & H2 & H3 & H4). by repeat split.
  - (* TrackEnds *)
    split; [| done].
    destruct (Hvoice r Voice.stop) as (H1 & H2 & H3 & H4); [done |].
    by repeat split.
  - (* VoicePause *)
    case_match; [| done]. split; [| done].
    apply Hvoice. intros v. unfold Voice.pause. by destruct (Voice.audio v).
  - (* VoiceResume *)
    case_match; [| done]. split; [| done].
    apply Hvoice. intros v. unfold Voice.resume. by destruct (Voice.audio v).
  - (* VoiceStop *)
    split; [| done]. by apply Hvoice.
  - (* VoiceDisconnect *)
    split; [| done].
    destruct Hinv as (H1 & H2 & H3 & H4). split; [| done].
    intros r'. simpl. case_decide; [done | apply H1].
Qed.

(** X6. While no voice client is connected, nothing is started and
    nothing is lost: from the creation of the engine on, whatever is
    enqueued, skipped, bound with [set_voice], stopped, paused or
    cancelled, as long as no client connects, no track is handed to a
    client, [current] stays [None], and (unless the queue is cleared)
    [pending] holds every enqueued track in arrival order. *)
Theorem nothing_starts_offline (gid : Z) (path : string)
    (vs : VoiceRef → Voice.VoiceClient) (evs : list Event) :
  (∀ r, Voice.is_connected (vs r) = false) →
  forallb (fun ev => negb (is_connect ev)) evs = true →
  let w := run_events evs (new_world gid path vs) in
  started w = []
  ∧ current (engine w) = None
  ∧ (Clear ∉ evs → pending (engine w) = enqueued_of evs).
Proof.
  intros Hoff Hev w.
  assert (H : offline_inv w
              ∧ (Clear ∉ evs → pending (engine w) = enqueued_of evs)).
  { unfold w. clear w.
    induction evs as [|ev evs IH] using rev_ind; [by repeat split |].
    rewrite forallb_app in Hev. apply andb_prop in Hev as [Hev1 Hev2].
    simpl in Hev2. rewrite andb_true_r in Hev2.
    apply negb_true_iff in Hev2.
    destruct (IH Hev1) as [Hinv Hp].
    rewrite run_events_snoc.
    destruct (apply_event_offline ev _ Hev2 Hinv) as [Hinv' Hp'].
    split; [done |]. intros Hc.
    apply not_elem_of_app in Hc as [Hc1 Hc2].
    apply not_elem_of_cons in Hc2 as [Hc2 _].
    rewrite Hp' by done. rewrite (Hp Hc1).
    unfold enqueued_of. by rewrite omap_app. }
  destruct H as [(_ & Hs & Hc & _) Hp]. done.
Qed.


(** ** Replacing the voice client *)

(** X18. [set_voice] takes effect at the next dequeue.  Binding another
    client [r'] while the loop awaits the end of [t] on client [r] neither
    wakes the loop nor touches any client: [t] goes on playing on [r].
    When it has ended, the next track is started on [r'].  In between
    [skip_current] looks at [r'] only: it answers [False] and changes
    nothing, although [t] is playing. *)
Theorem set_voice_applies_to_next_track (w : World) (r r' : VoiceRef)
    (t t1 : Track) (rest : list Track) :
  playing_on r t w →
  r' ≠ r →
  voices w r' = Voice.fresh →
  next (engine w) = false →
  pending (engine w) = t1 :: rest →
  spawn_ok t1 = true →
  cleanup_of t ≠ CleanupOtherError →
  let w1 := set_voice r' w in
  voices w1 = voices w
  ∧ resume w1 = w1
  ∧ Voice.is_playing (voices w1 r) = true
  ∧ skip_current w1 = (false, w1)
  ∧ let w2 := run_events [TrackEnds r; Resume] w1 in
    playing_on r' t1 w2
    ∧ Voice.is_playing (voices w2 r) = false
    ∧ pending (engine w2) = rest
    ∧ started w2 = started w ++ [t1].
Proof.
  intros (Hl & Hv & Hvs & Hc) Hne Hfresh Hn Hp Hs Hcl w1.
  split; [done |].
  split.
  { unfold resume, settle, w1; simpl. by rewrite Hl, Hn. }
  split; [unfold w1; simpl; by rewrite Hvs |].
  split.
  { unfold skip_current, w1; simpl. by rewrite Hfresh. }
  intros w2.
  assert (Hw2 : w2 = loop_top (upd_engine (set_current None)
                         (log_cleaned t (apply_event (TrackEnds r) w1)))).
  { unfold w2. change (run_events [TrackEnds r; Resume] w1)
      with (resume (apply_event (TrackEnds r) w1)).
    by apply resume_signalled. }
  destruct (loop_top_starts spawn_ok
              (upd_engine (set_current None)
                 (log_cleaned t (apply_event (TrackEnds r) w1)))
              r' t1 rest) as (Hplay & Hp' & Hs'); try done.
  { simpl. rewrite decide_False by done. done. }
  rewrite Hw2. split; [done |]. split; [| done].
  unfold loop_top, wait_for_track, begin_track; simpl.
  rewrite Hp. simpl. rewrite decide_False by done. rewrite Hfresh. simpl.
  rewrite Hs. simpl. rewrite decide_False by congruence.
  rewrite decide_True by done. done.
Qed.


End EngineInvariants.

(** * The guards and the commands *)

Lemma refusal_truthy shown :
  truthy (Some ("Musikbefehle sind nur in " +:+ shown +:+ " erlaubt.")) = true.
Proof. done. Qed.

Lemma check_music_channel_cases cfg guild cid obj :
  check_music_channel cfg guild cid obj = (true, None)
  ∨ ∃ shown, check_music_channel cfg guild cid obj
             = (false, Some ("Musikbefehle sind nur in " +:+ shown +:+ " erlaubt.")).
Proof.
  unfold check_music_channel.
  destruct (music_channel_id cfg =? 0); [by left |].
  destruct (bool_decide (cid = Some (music_channel_id cfg))); [by left |].
  case_bool_decide; [by left |]. right. eauto.
Qed.


Lemma ensure_music_channel_ctx_allowed cfg ctx :
  ensure_music_channel_ctx cfg ctx = None
  ↔ (check_music_channel cfg (ctx_guild ctx) (ctx_channel_id ctx)
       (if is_guild_channel (ctx_channel ctx)
        then Some (ctx_channel ctx) else None)).1 = true.
Proof.
  unfold ensure_music_channel_ctx.
  destruct (check_music_channel_cases cfg (ctx_guild ctx) (ctx_channel_id ctx)
              (if is_guild_channel (ctx_channel ctx)
               then Some (ctx_channel ctx) else None)) as [-> | [shown ->]].
  - done.
  - rewrite refusal_truthy. simpl. split; intros H; discriminate H.
Qed.

(** X8. [validate_interaction_member] returns no error exactly when the
    interaction has a guild, its channel passes [check_music_channel], and
    its user is a member of the guild with DJ rights.  In that case it
    returns the guild and the member, so the assertions that follow it
    (lines 406 and 618) hold; and an error it returns is never the empty
    string, so [if error:] catches every error. *)
Theorem validate_interaction_member_spec (cfg : Settings) (ctx : Ctx) :
  ((validate_interaction_member cfg ctx).2 = None
   ↔ ∃ guild, ctx_guild ctx = Some guild
       ∧ (check_music_channel cfg (Some guild) (ctx_channel_id ctx)
            (interaction_channel guild (ctx_channel_id ctx))).1 = true
       ∧ has_dj_rights cfg ctx = true)
  ∧ ((validate_interaction_member cfg ctx).2 = None
     → (validate_interaction_member cfg ctx).1.1 = ctx_guild ctx
       ∧ (validate_interaction_member cfg ctx).1.1 ≠ None
       ∧ (validate_interaction_member cfg ctx).1.2 = Some (ctx_author ctx))
  ∧ ((validate_interaction_member cfg ctx).2 ≠ None
     → truthy (validate_interaction_member cfg ctx).2 = true).
Proof.
  unfold validate_interaction_member, has_dj_rights.
  destruct (ctx_guild ctx) as [guild|]; simpl.
  2:{ split; [split; [done | by intros (g & Hg & _)] |]. split; [done |].
      intros _. done. }
  destruct (check_music_channel_cases cfg (Some guild) (ctx_channel_id ctx)
              (interaction_channel guild (ctx_channel_id ctx)))
    as [Hc | [shown Hc]]; rewrite Hc; simpl.
  - destruct (is_member (ctx_author ctx)); simpl.
    + destruct (dj_allowed cfg (ctx_author ctx)); simpl.
      * split; [split; [| done] |]; [| split; done].
        intros _. exists guild. by rewrite Hc.
      * split; [split; [done | by intros (g & _ & _ & ?)] |].
        split; [done |]. intros _. done.
    + split; [split; [done | by intros (g & _ & _ & ?)] |].
      split; [done |]. intros _. done.
  - split; [split; [done |] |]; [| split; [done |]; intros _; done].
    intros (g & [= <-] & Hch & _). rewrite Hc in Hch. done.
Qed.

Section CommandProperties.

Variable spawn_ok : Track -> bool.
Variable cleanup_of : Track -> CleanupResult.

Local Abbreviation loop_top := (loop_top spawn_ok).
Local Abbreviation resume := (resume spawn_ok cleanup_of).
Local Abbreviation apply_event := (apply_event spawn_ok cleanup_of).
Local Abbreviation run_events := (run_events spawn_ok cleanup_of).
Local Abbreviation stop_command := (stop_command spawn_ok cleanup_of).
Local Abbreviation leave_command := (leave_command spawn_ok cleanup_of).
Local Abbreviation handle_leave_button := (handle_leave_button spawn_ok cleanup_of).

(** X9. The commands skip, pause, resume and stop act only for a guild
    member with DJ rights: a member who, when a DJ role is configured
    (id not 0), has that role.  For any other author they leave the
    session untouched, and in the music channel they answer
    "Du hast keine DJ-Rechte.". *)
Theorem commands_need_dj_rights (cfg : Settings) (ctx : Ctx)
    (registered : bool) (between : list Event) (w : World) :
  (has_dj_rights cfg ctx = true
   ↔ is_member (ctx_author ctx) = true
     ∧ (dj_role_id cfg = 0 ∨ dj_role_id cfg ∈ roles (ctx_author ctx)))
  ∧ (has_dj_rights cfg ctx = false →
       (skip_command cfg ctx registered w).2 = w
       ∧ (pause_command cfg ctx w).2 = w
       ∧ (resume_command cfg ctx w).2 = w
       ∧ (stop_command cfg ctx registered between w).2 = w
       ∧ (ensure_music_channel_ctx cfg ctx = None →
            (skip_command cfg ctx registered w).1 = "Du hast keine DJ-Rechte."
            ∧ (pause_command cfg ctx w).1 = "Du hast keine DJ-Rechte."
            ∧ (resume_command cfg ctx w).1 = "Du hast keine DJ-Rechte."
            ∧ (stop_command cfg ctx registered between w).1
              = "Du hast keine DJ-Rechte.")).
Proof.
  split.
  - unfold has_dj_rights, dj_allowed.
    rewrite andb_true_iff, orb_true_iff, Z.eqb_eq.
    assert (Hex : existsb (λ role, role =? dj_role_id cfg) (roles (ctx_author ctx)) = true
                  ↔ dj_role_id cfg ∈ roles (ctx_author ctx)).
    { rewrite existsb_exists. split.
      - intros (x & Hin & Hx). apply Z.eqb_eq in Hx. subst.
        by apply list_elem_of_In.
      - intros Hin. exists (dj_role_id cfg). split.
        + by apply list_elem_of_In.
        + apply Z.eqb_refl. }
    by rewrite Hex.
  - intros Hno.
    unfold skip_command, pause_command, resume_command, stop_command.
    rewrite Hno. simpl.
    destruct (ensure_music_channel_ctx cfg ctx); simpl; [| done].
    repeat split; done.
Qed.

Lemma playing_on_clear_queue r t w :
  playing_on r t w → playing_on r t (clear_queue w).
Proof. by intros (H1 & H2 & H3 & H4). Qed.

(** X10. The stop command with debug logging off.  Issued in the music
    channel by a member with DJ rights while the loop awaits the end of
    [t] on the guild's client, it stops the client and empties [pending];
    [current] still names [t] until the [after_play] callback arrives.
    The next turn of the loop then releases the source of [t], resets
    [current] and sleeps on [queue_event]: nothing else is started. *)
Theorem stop_command_idles (cfg : Settings) (ctx : Ctx) (w : World)
    (r : VoiceRef) (t : Track) :
  ensure_music_channel_ctx cfg ctx = None →
  has_dj_rights cfg ctx = true →
  ctx_guild ctx ≠ None →
  ctx_voice_client ctx = Some r →
  playing_on r t w →
  cleanup_of t ≠ CleanupOtherError →
  let w1 := (stop_command cfg ctx true [] w).2 in
  (stop_command cfg ctx true [] w).1 = "Queue geleert und Playback gestoppt."
  ∧ pending (engine w1) = []
  ∧ Voice.is_playing (voices w1 r) = false
  ∧ current (engine w1) = Some t
  ∧ loop_task (engine w1) = AwaitNext t
  ∧ let w2 := run_events [AfterPlay; Resume] w1 in
    current (engine w2) = None
    ∧ loop_task (engine w2) = AwaitQueue
    ∧ pending (engine w2) = []
    ∧ started w2 = started w
    ∧ cleaned w2 = cleaned w ++ [t].
Proof.
  intros He Hdj Hg Hv (Hl & Hvo & Hvs & Hc) Hcl.
  unfold stop_command. rewrite He, Hdj, Hv. simpl.
  rewrite bool_decide_eq_true_2 by done. simpl.
  rewrite decide_True by done.
  repeat split; try done.
  all: unfold resume, settle; simpl; rewrite Hl; simpl;
    unfold after_playback; destruct (cleanup_of t); done.
Qed.

(** X11. The stop command with debug logging on.  The handler awaits
    [send_debug] between [voice.stop()] and [clear_queue()].  If the
    [after_play] callback and a turn of the loop fall into that pause
    while a track [t1] waits, the loop starts [t1] before the queue is
    emptied: the command answers that playback was stopped while [t1] is
    playing on the client. *)
Theorem stop_command_overtaken (cfg : Settings) (ctx : Ctx) (w : World)
    (r : VoiceRef) (t t1 : Track) (rest : list Track) :
  ensure_music_channel_ctx cfg ctx = None →
  has_dj_rights cfg ctx = true →
  ctx_guild ctx ≠ None →
  ctx_voice_client ctx = Some r →
  playing_on r t w →
  cleanup_of t ≠ CleanupOtherError →
  pending (engine w) = t1 :: rest →
  spawn_ok t1 = true →
  let w1 := (stop_command cfg ctx true [AfterPlay; Resume] w).2 in
  (stop_command cfg ctx true [AfterPlay; Resume] w).1
  = "Queue geleert und Playback gestoppt."
  ∧ playing_on r t1 w1
  ∧ Voice.is_playing (voices w1 r) = true
  ∧ pending (engine w1) = []
  ∧ started w1 = started w ++ [t1].
Proof.
  intros He Hdj Hg Hv (Hl & Hvo & Hvs & Hc) Hcl Hp Hs.
  unfold stop_command. rewrite He, Hdj, Hv. simpl.
  rewrite bool_decide_eq_true_2 by done. simpl.
  set (w0 := upd_voice r Voice.stop w).
  assert (Hres : resume (apply_event AfterPlay w0)
                 = loop_top (upd_engine (set_current None)
                               (log_cleaned t (apply_event AfterPlay w0)))).
  { unfold resume, settle; simpl. rewrite Hl. simpl.
    unfold after_playback. by destruct (cleanup_of t). }
  fold (apply_event AfterPlay w0). rewrite Hres.
  destruct (loop_top_starts spawn_ok
              (upd_engine (set_current None)
                 (log_cleaned t (apply_event AfterPlay w0)))
              r t1 rest) as (Hplay & Hp' & Hs'); try done.
  { simpl. rewrite decide_True by done. by rewrite Hvs. }
  split; [done |]. split; [by apply playing_on_clear_queue |].
  split.
  { destruct Hplay as (_ & _ & Hvs' & _).
    change (voices (clear_queue ?x) r) with (voices x r).
    rewrite Hvs'. done. }
  split; [done |]. exact Hs'.
Qed.

(** X12. The leave command does not ask for DJ rights, the leave button
    does.  For an author without DJ rights the button leaves the session
    untouched; the command, issued in the music channel while the guild's
    client is connected, disconnects the client and, once the handler goes
    on, empties [pending] of the guild's engine. *)
Theorem leave_command_skips_dj_check (cfg : Settings) (ctx : Ctx)
    (registered : bool) (between : list Event) (w : World) (r : VoiceRef) :
  has_dj_rights cfg ctx = false →
  (handle_leave_button cfg ctx registered between w).2 = w
  ∧ (ensure_music_channel_ctx cfg ctx = None →
     ctx_voice_client ctx = Some r →
     Voice.is_connected (voices w r) = true →
     (leave_command cfg ctx registered between w).1 = "Verbindung getrennt."
     ∧ (ctx_guild ctx ≠ None → registered = true →
        (leave_command cfg ctx registered between w).2
        = clear_queue (run_events between (upd_voice r Voice.disconnect w))
        ∧ pending (engine (leave_command cfg ctx registered between w).2) = [])).
Proof.
  intros Hno. split.
  - destruct (validate_interaction_member_spec cfg ctx) as (Hiff & _ & Htruthy).
    unfold handle_leave_button.
    destruct (validate_interaction_member cfg ctx) as [[g m] err] eqn:Hval.
    simpl in *.
    destruct err as [e|].
    + rewrite Htruthy by done. done.
    + destruct (proj1 Hiff eq_refl) as (g' & _ & _ & Hdj). congruence.
  - intros He Hv Hc. unfold leave_command. rewrite He, Hv, Hc. simpl.
    split; [done |]. intros Hg ->.
    rewrite bool_decide_eq_true_2 by done. done.
Qed.

(** X13. Pausing and resuming through the commands.  Issued in the music
    channel by a member with DJ rights while the guild's client plays,
    the pause command pauses it and a second pause command finds nothing
    to pause; the resume command then restores every voice client to its
    state before the pause.  Neither command touches the engine. *)
Theorem pause_resume_commands (cfg : Settings) (ctx : Ctx) (w : World)
    (r : VoiceRef) :
  ensure_music_channel_ctx cfg ctx = None →
  has_dj_rights cfg ctx = true →
  ctx_voice_client ctx = Some r →
  Voice.is_playing (voices w r) = true →
  let w1 := (pause_command cfg ctx w).2 in
  let w2 := (resume_command cfg ctx w1).2 in
  (pause_command cfg ctx w).1 = "Pausiert."
  ∧ Voice.is_paused (voices w1 r) = true
  ∧ pause_command cfg ctx w1 = ("Es läuft nichts zum Pausieren.", w1)
  ∧ resume_command cfg ctx w = ("Es ist nichts pausiert.", w)
  ∧ (resume_command cfg ctx w1).1 = "Fortgesetzt."
  ∧ (∀ r', voices w2 r' = voices w r')
  ∧ engine w1 = engine w ∧ engine w2 = engine w
  ∧ started w2 = started w ∧ cleaned w2 = cleaned w.
Proof.
  intros He Hdj Hv Hp.
  unfold pause_command, resume_command. rewrite He, Hdj, Hv. simpl.
  rewrite Hp. simpl.
  unfold Voice.is_playing, Voice.is_paused, Voice.pause in *.
  destruct (voices w r) as [con [[src pa]|]] eqn:Hvs; simpl in *; [| done].
  destruct pa; [done |].
  destruct (decide (r = r)) as [_ | Hne]; [| done]. simpl.
  repeat split; try done.
  intros r'. simpl.
  destruct (decide (r' = r)) as [-> | Hne]; [| done].
  destruct (decide (r = r)) as [_ | Hne]; [| done]. by rewrite Hvs.
Qed.

End CommandProperties.

(** * The registry and the debug switch *)

(** X14. [get_player] for one guild leaves the others alone: the entry
    of every other guild is the same afterwards, every engine that existed
    is still there under the same reference, and at most one engine is
    added. *)
Theorem get_player_frame (path : string) (gid : Z) (m : Music) :
  (∀ g, g ≠ gid → players (get_player path gid m).2 !! g = players m !! g)
  ∧ (∀ r p, objects m !! r = Some p →
       objects (get_player path gid m).2 !! r = Some p)
  ∧ (length (objects m) ≤ length (objects (get_player path gid m).2)
     ≤ S (length (objects m)))%nat
  ∧ (∀ g r, players m !! g = Some r →
       players (get_player path gid m).2 !! g = Some r).
Proof.
  unfold get_player.
  destruct (players m !! gid) as [r0|] eqn:Hg; simpl.
  - repeat split; try done; lia.
  - split; [intros g Hne; by rewrite lookup_insert_ne |].
    split; [intros r p Hp; by apply lookup_app_l_Some |].
    split; [rewrite length_app; simpl; lia |].
    intros g r Hl. rewrite lookup_insert_ne; [done |]. congruence.
Qed.

(** X15. The debug switch of a guild.  "on" and "off" set the flag
    whatever it was, "toggle" inverts it, so toggling twice restores it;
    the flags of other guilds are not touched.  A debug line is sent only
    for a guild whose flag is on and only when a log channel is
    configured, so after "off" nothing is sent for that guild; and the
    answer carries the hint about the missing log channel exactly when
    logging was switched on without one. *)
Theorem music_debug_spec (log_channel_id gid : Z) (mode : DebugMode)
    (debug_enabled : gmap Z bool) :
  debug_on (music_debug log_channel_id gid ModeOn debug_enabled).1 gid = true
  ∧ debug_on (music_debug log_channel_id gid ModeOff debug_enabled).1 gid = false
  ∧ debug_on (music_debug log_channel_id gid ModeToggle debug_enabled).1 gid
    = negb (debug_on debug_enabled gid)
  ∧ debug_on (music_debug log_channel_id gid ModeToggle
                (music_debug log_channel_id gid ModeToggle debug_enabled).1).1 gid
    = debug_on debug_enabled gid
  ∧ (∀ g, g ≠ gid →
       debug_on (music_debug log_channel_id gid mode debug_enabled).1 g
       = debug_on debug_enabled g)
  ∧ (∀ channels,
       send_debug_target log_channel_id
         (music_debug log_channel_id gid ModeOff debug_enabled).1
         (Some (gid, channels)) = None)
  ∧ (∀ flags guild, log_channel_id = 0 →
       send_debug_target log_channel_id flags guild = None)
  ∧ ((music_debug log_channel_id gid mode debug_enabled).2
     = "Musik-Debug wurde aktiviert. Hinweis: Setze zuerst einen Musik-Log-Kanal mit /config setchannel music_log <#kanal>."
     ↔ debug_on (music_debug log_channel_id gid mode debug_enabled).1 gid = true
       ∧ log_channel_id = 0).
Proof.
  unfold music_debug, debug_on; simpl.
  rewrite !lookup_insert_eq. simpl.
  split; [done |]. split; [done |]. split; [done |].
  split; [by rewrite negb_involutive |].
  split; [intros g Hne; by rewrite lookup_insert_ne |].
  split.
  { intros channels. unfold send_debug_target, debug_on.
    by rewrite lookup_insert_eq. }
  split.
  { intros flags guild ->. unfold send_debug_target.
    destruct guild as [[g channels]|]; [| done]. by case_match. }
  destruct (log_channel_id =? 0) eqn:Hz.
  - apply Z.eqb_eq in Hz. subst.
    destruct mode; simpl; try (split; [done | intros [? _]; done]).
    destruct (default false (debug_enabled !! gid)); simpl; split;
      try done; intros [? _]; done.
  - apply Z.eqb_neq in Hz.
    destruct mode; simpl; rewrite ?andb_false_r; simpl.
    + split; [done | intros [_ ?]; done].
    + split; [done | intros [? _]; done].
    + destruct (default false (debug_enabled !! gid)); simpl;
        (split; [done | intros [_ ?]; done]).
Qed.

(** * Telemetry *)

Section MonitorProperties.

Context {D T C : Type}.
Variable d_zero : D.
Variable d_add : D → D → D.
Variable d_gt : D → D → bool.
Variable slow : D → bool.
Variable c_str : string → C.

Local Abbreviation record_bot_task :=
  (Monitor.record_bot_task (T:=T) d_zero d_add d_gt slow c_str).
Local Abbreviation record_all :=
  (Monitor.record_all (T:=T) d_zero d_add d_gt slow c_str).
Local Abbreviation new_metric := (Monitor.new_metric d_zero).
Local Abbreviation slow_entry_of := (Monitor.slow_entry_of (T:=T) c_str).

Lemma record_all_snoc calls c h :
  record_all (calls ++ [c]) h = record_bot_task c (record_all calls h).
Proof. unfold Monitor.record_all. by rewrite foldl_app. Qed.

Lemma appendleft_take (n : nat) (x : Monitor.Entry (D:=D) (T:=T) (C:=C)) q :
  Monitor.appendleft n x (take n q) = take n (x :: q).
Proof.
  unfold Monitor.appendleft. destruct n as [|n]; [done |]. simpl.
  f_equal. rewrite take_take. f_equal. lia.
Qed.

Lemma task_recent_record c h :
  Monitor.task_recent (record_bot_task c h)
  = Monitor.appendleft 40 (Monitor.entry_of c) (Monitor.task_recent h).
Proof. unfold Monitor.record_bot_task. by destruct (slow _). Qed.

Lemma events_record c h :
  Monitor.events (record_bot_task c h)
  = if slow (Monitor.call_duration c)
    then Monitor.appendleft 40 (slow_entry_of c) (Monitor.events h)
    else Monitor.events h.
Proof. unfold Monitor.record_bot_task. by destruct (slow _). Qed.

Lemma task_metrics_record c h :
  Monitor.task_metrics (record_bot_task c h)
  = <[Monitor.call_name c :=
        Monitor.add d_add d_gt (Monitor.call_duration c)
          (default new_metric
             (Monitor.task_metrics h !! Monitor.call_name c))]>
      (Monitor.task_metrics h).
Proof. unfold Monitor.record_bot_task. by destruct (slow _). Qed.

(** X16. The two buffers of the monitor are bounded and ordered: after
    any sequence of [record_bot_task] calls on a new monitor,
    [_task_recent] holds the 40 most recent calls, newest first, and
    [_events] holds one "task.slow" entry for each of the 40 most recent
    calls that took more than 10 seconds, newest first, and nothing
    else; neither ever holds more than 40 entries. *)
Theorem monitor_buffers_bounded (calls : list Monitor.Call) :
  let h := record_all calls Monitor.new_monitor in
  Monitor.task_recent h = take 40 (reverse (map Monitor.entry_of calls))
  ∧ Monitor.events h
    = take 40 (reverse (map slow_entry_of
         (filter (λ c, slow (Monitor.call_duration c) = true) calls)))
  ∧ (length (Monitor.task_recent h) ≤ 40)%nat
  ∧ (length (Monitor.events h) ≤ 40)%nat.
Proof.
  intros h.
  assert (H : Monitor.task_recent h
              = take 40 (reverse (map Monitor.entry_of calls))
              ∧ Monitor.events h
                = take 40 (reverse (map slow_entry_of
                    (filter (λ c, slow (Monitor.call_duration c) = true) calls)))).
  { unfold h. clear h.
    induction calls as [|c calls [IH1 IH2]] using rev_ind; [done |].
    rewrite record_all_snoc, task_recent_record, events_record.
    rewrite IH1, IH2, map_app, reverse_app, filter_app. simpl.
    split; [apply appendleft_take |].
    rewrite filter_cons, filter_nil.
    destruct (slow (Monitor.call_duration c)) eqn:Hs.
    - rewrite decide_True by done.
      rewrite map_app, reverse_app. simpl. apply appendleft_take.
    - rewrite decide_False by done. by rewrite app_nil_r. }
  destruct H as [H1 H2]. split; [done |]. split; [done |].
  rewrite H1, H2, !length_take. lia.
Qed.

(** X17. The metric of a task name counts the calls under that name:
    after any sequence of [record_bot_task] calls on a new monitor, a
    name has a metric exactly when some call carried it, and its [count]
    is the number of those calls. *)
Theorem monitor_counts_calls (calls : list Monitor.Call) (nm : string) :
  let h := record_all calls Monitor.new_monitor in
  Monitor.count (default new_metric (Monitor.task_metrics h !! nm))
  = Z.of_nat (length (filter (λ c, Monitor.call_name c = nm) calls))
  ∧ (Monitor.task_metrics h !! nm = None
     ↔ ∀ c, c ∈ calls → Monitor.call_name c ≠ nm).
Proof.
  intros h. unfold h. clear h.
  induction calls as [|c calls [IH1 IH2]] using rev_ind.
  - simpl. split; [done |]. split; [| done].
    intros _ c Hc. by apply elem_of_nil in Hc.
  - rewrite record_all_snoc, task_metrics_record.
    rewrite filter_app, length_app, filter_cons, filter_nil.
    destruct (decide (Monitor.call_name c = nm)) as [<- | Hne].
    + rewrite lookup_insert_eq. simpl. split.
      * rewrite IH1. lia.
      * split; [done |]. intros H. destruct (H c); [| done].
        apply elem_of_app. right. by left.
    + rewrite lookup_insert_ne by done. simpl. split.
      * rewrite IH1. lia.
      * rewrite IH2. split.
        -- intros H c' Hc'. apply elem_of_app in Hc' as [Hc' | Hc'].
           ++ by apply H.
           ++ apply list_elem_of_singleton in Hc'. by subst.
        -- intros H c' Hc'. apply H. apply elem_of_app. by left.
Qed.

End MonitorProperties.

(** * Concrete instances of the further properties *)

Lemma playing_on_world_playing_a : playing_on 0%nat song_a world_playing_a.
Proof. repeat split; reflexivity. Defined.

Lemma cleanup_clean_fine t : cleanup_clean t ≠ CleanupOtherError.
Proof. discriminate. Defined.

Lemma ctx_guild_present : ctx_guild ctx_dj ≠ None.
Proof. discriminate. Defined.

Lemma current_follows_loop_witness :
  loop_task (engine world_playing_a) = AwaitNext song_a
  ∧ current (engine world_playing_a) = Some song_a.
Proof.
  split; [reflexivity |].
  exact (proj1 (current_follows_loop always_spawns cleanup_clean 1 "ffmpeg"
                  voices_online
                  [SetVoice 0%nat; Enqueue song_a; Enqueue song_b; Resume])
               song_a eq_refl).
Defined.

Lemma one_source_at_a_time_witness :
  loop_task (engine world_playing_a) = AwaitNext song_a
  ∧ started world_playing_a = cleaned world_playing_a ++ [song_a].
Proof.
  split; [reflexivity |].
  exact (proj1 (proj2 (proj2
           (one_source_at_a_time always_spawns cleanup_clean 1 "ffmpeg"
              voices_online
              [SetVoice 0%nat; Enqueue song_a; Enqueue song_b; Resume])))
           song_a eq_refl).
Defined.

Lemma enqueue_wakes_loop_witness :
  loop_task (engine (run_events always_spawns cleanup_clean
                       [Resume; Enqueue song_a]
                       (new_world 1 "ffmpeg" voices_online))) = AwaitQueue
  ∧ pending (engine (run_events always_spawns cleanup_clean
                       [Resume; Enqueue song_a]
                       (new_world 1 "ffmpeg" voices_online))) ≠ []
  ∧ queue_event (engine (run_events always_spawns cleanup_clean
                           [Resume; Enqueue song_a]
                           (new_world 1 "ffmpeg" voices_online))) = true.
Proof.
  assert (Hp : pending (engine (run_events always_spawns cleanup_clean
                       [Resume; Enqueue song_a]
                       (new_world 1 "ffmpeg" voices_online))) ≠ [])
    by discriminate.
  split; [reflexivity |]. split; [exact Hp |].
  exact (proj1 (enqueue_wakes_loop always_spawns cleanup_clean 1 "ffmpeg"
                  voices_online [Resume; Enqueue song_a] eq_refl Hp)).
Defined.

Lemma skip_starts_next_track_witness :
  playing_on 0%nat song_a world_playing_a
  ∧ cleanup_clean song_a ≠ CleanupOtherError
  ∧ pending (engine world_playing_a) = [song_b]
  ∧ always_spawns song_b = true
  ∧ playing_on 0%nat song_b
      (run_events always_spawns cleanup_clean [Skip; Resume] world_playing_a).
Proof.
  split; [exact playing_on_world_playing_a |].
  split; [exact (cleanup_clean_fine song_a) |].
  split; [reflexivity |]. split; [reflexivity |].
  exact (proj1 (proj2 (proj2
           (skip_starts_next_track always_spawns cleanup_clean world_playing_a
              0%nat song_a playing_on_world_playing_a
              (cleanup_clean_fine song_a)))
           song_b [] eq_refl eq_refl)).
Defined.

Lemma untimely_signal_drops_track_witness :
  playing_on 0%nat song_a world_playing_a
  ∧ cleanup_clean song_a ≠ CleanupOtherError
  ∧ pending (engine world_playing_a) = [song_b]
  ∧ loop_task (engine (run_events always_spawns cleanup_clean
                         [AfterPlay; Resume] world_playing_a))
    = Raised ClientException.
Proof.
  split; [exact playing_on_world_playing_a |].
  split; [exact (cleanup_clean_fine song_a) |].
  split; [reflexivity |].
  exact (proj1 (proj2 (proj2 (proj2 (proj2
           (untimely_signal_drops_track always_spawns cleanup_clean
              world_playing_a 0%nat song_a playing_on_world_playing_a
              (cleanup_clean_fine song_a)))))
           song_b [] eq_refl)).
Defined.

Lemma nothing_starts_offline_witness :
  (∀ r, Voice.is_connected (voices_offline r) = false)
  ∧ forallb (fun ev => negb (is_connect ev))
      [SetVoice 0%nat; Enqueue song_a; Resume; Enqueue song_b; Resume] = true
  ∧ started (run_events always_spawns cleanup_clean
               [SetVoice 0%nat; Enqueue song_a; Resume; Enqueue song_b; Resume]
               (new_world 1 "ffmpeg" voices_offline)) = [].
Proof.
  split; [intros r; reflexivity |]. split; [reflexivity |].
  exact (proj1 (nothing_starts_offline always_spawns cleanup_clean 1 "ffmpeg"
                  voices_offline
                  [SetVoice 0%nat; Enqueue song_a; Resume; Enqueue song_b; Resume]
                  (fun r => eq_refl) eq_refl)).
Defined.

Lemma set_voice_applies_to_next_track_witness :
  playing_on 0%nat song_a world_playing_a
  ∧ 1%nat ≠ 0%nat
  ∧ voices world_playing_a 1%nat = Voice.fresh
  ∧ next (engine world_playing_a) = false
  ∧ pending (engine world_playing_a) = [song_b]
  ∧ playing_on 1%nat song_b
      (run_events always_spawns cleanup_clean [TrackEnds 0%nat; Resume]
         (set_voice 1%nat world_playing_a)).
Proof.
  assert (Hne : 1%nat ≠ 0%nat) by discriminate.
  split; [exact playing_on_world_playing_a |]. split; [exact Hne |].
  split; [reflexivity |]. split; [reflexivity |]. split; [reflexivity |].
  exact (proj1 (proj2 (proj2 (proj2 (proj2
           (set_voice_applies_to_next_track always_spawns cleanup_clean
              world_playing_a 0%nat 1%nat song_a song_b []
              playing_on_world_playing_a Hne eq_refl eq_refl eq_refl eq_refl
              (cleanup_clean_fine song_a))))))).
Defined.


Lemma validate_interaction_member_spec_witness :
  (validate_interaction_member sample_settings ctx_dj).2 = None
  ∧ (validate_interaction_member sample_settings ctx_dj).1.2 = Some author_dj
  ∧ (validate_interaction_member sample_settings ctx_listener).2 ≠ None
  ∧ truthy (validate_interaction_member sample_settings ctx_listener).2 = true.
Proof.
  assert (Hl : (validate_interaction_member sample_settings ctx_listener).2 ≠ None)
    by discriminate.
  split; [reflexivity |]. split.
  - exact (proj2 (proj2 (proj1 (proj2
             (validate_interaction_member_spec sample_settings ctx_dj)) eq_refl))).
  - split; [exact Hl |].
    exact (proj2 (proj2
             (validate_interaction_member_spec sample_settings ctx_listener)) Hl).
Defined.

Lemma commands_need_dj_rights_witness :
  has_dj_rights sample_settings ctx_listener = false
  ∧ ensure_music_channel_ctx sample_settings ctx_listener = None
  ∧ (skip_command sample_settings ctx_listener true world_playing_a).2
    = world_playing_a
  ∧ (skip_command sample_settings ctx_listener true world_playing_a).1
    = "Du hast keine DJ-Rechte.".
Proof.
  destruct (proj2 (commands_need_dj_rights always_spawns cleanup_clean
                     sample_settings ctx_listener true [] world_playing_a)
                  eq_refl) as (H1 & _ & _ & _ & H5).
  split; [reflexivity |]. split; [reflexivity |]. split; [exact H1 |].
  exact (proj1 (H5 eq_refl)).
Defined.

Lemma stop_command_idles_witness :
  ensure_music_channel_ctx sample_settings ctx_dj = None
  ∧ has_dj_rights sample_settings ctx_dj = true
  ∧ ctx_guild ctx_dj ≠ None
  ∧ ctx_voice_client ctx_dj = Some 0%nat
  ∧ playing_on 0%nat song_a world_playing_a
  ∧ cleanup_clean song_a ≠ CleanupOtherError
  ∧ pending (engine (stop_command always_spawns cleanup_clean sample_settings
                       ctx_dj true [] world_playing_a).2) = [].
Proof.
  split; [reflexivity |]. split; [reflexivity |].
  split; [exact ctx_guild_present |]. split; [reflexivity |].
  split; [exact playing_on_world_playing_a |].
  split; [exact (cleanup_clean_fine song_a) |].
  exact (proj1 (proj2
           (stop_command_idles always_spawns cleanup_clean sample_settings
              ctx_dj world_playing_a 0%nat song_a eq_refl eq_refl
              ctx_guild_present eq_refl playing_on_world_playing_a
              (cleanup_clean_fine song_a)))).
Defined.

Lemma stop_command_overtaken_witness :
  ensure_music_channel_ctx sample_settings ctx_dj = None
  ∧ has_dj_rights sample_settings ctx_dj = true
  ∧ ctx_guild ctx_dj ≠ None
  ∧ ctx_voice_client ctx_dj = Some 0%nat
  ∧ playing_on 0%nat song_a world_playing_a
  ∧ cleanup_clean song_a ≠ CleanupOtherError
  ∧ pending (engine world_playing_a) = [song_b]
  ∧ always_spawns song_b = true
  ∧ playing_on 0%nat song_b
      (stop_command always_spawns cleanup_clean sample_settings ctx_dj true
         [AfterPlay; Resume] world_playing_a).2.
Proof.
  split; [reflexivity |]. split; [reflexivity |].
  split; [exact ctx_guild_present |]. split; [reflexivity |].
  split; [exact playing_on_world_playing_a |].
  split; [exact (cleanup_clean_fine song_a) |].
  split; [reflexivity |]. split; [reflexivity |].
  exact (proj1 (proj2
           (stop_command_overtaken always_spawns cleanup_clean sample_settings
              ctx_dj world_playing_a 0%nat song_a song_b [] eq_refl eq_refl
              ctx_guild_present eq_refl playing_on_world_playing_a
              (cleanup_clean_fine song_a) eq_refl eq_refl))).
Defined.

Lemma leave_command_skips_dj_check_witness :
  has_dj_rights sample_settings ctx_listener = false
  ∧ ensure_music_channel_ctx sample_settings ctx_listener = None
  ∧ ctx_voice_client ctx_listener = Some 0%nat
  ∧ Voice.is_connected (voices world_playing_a 0%nat) = true
  ∧ (handle_leave_button always_spawns cleanup_clean sample_settings
       ctx_listener true [] world_playing_a).2 = world_playing_a
  ∧ (leave_command always_spawns cleanup_clean sample_settings
       ctx_listener true [] world_playing_a).1 = "Verbindung getrennt.".
Proof.
  destruct (leave_command_skips_dj_check always_spawns cleanup_clean
              sample_settings ctx_listener true [] world_playing_a 0%nat
              eq_refl) as [H1 H2].
  split; [reflexivity |]. split; [reflexivity |]. split; [reflexivity |].
  split; [reflexivity |]. split; [exact H1 |].
  exact (proj1 (H2 eq_refl eq_refl eq_refl)).
Defined.

Lemma pause_resume_commands_witness :
  ensure_music_channel_ctx sample_settings ctx_dj = None
  ∧ has_dj_rights sample_settings ctx_dj = true
  ∧ ctx_voice_client ctx_dj = Some 0%nat
  ∧ Voice.is_playing (voices world_playing_a 0%nat) = true
  ∧ (pause_command sample_settings ctx_dj world_playing_a).1 = "Pausiert."
  ∧ Voice.is_paused
      (voices (pause_command sample_settings ctx_dj world_playing_a).2 0%nat)
    = true.
Proof.
  destruct (pause_resume_commands sample_settings ctx_dj world_playing_a 0%nat
              eq_refl eq_refl eq_refl eq_refl) as (H1 & H2 & _).
  split; [reflexivity |]. split; [reflexivity |]. split; [reflexivity |].
  split; [reflexivity |]. split; [exact H1 | exact H2].
Defined.

Lemma get_player_frame_witness :
  1 ≠ 2
  ∧ players (get_player "ffmpeg" 2 (lookups [("ffmpeg", 1)] new_music)).2 !! 1
    = players (lookups [("ffmpeg", 1)] new_music) !! 1.
Proof.
  assert (Hne : 1 ≠ 2) by discriminate.
  split; [exact Hne |].
  exact (proj1 (get_player_frame "ffmpeg" 2 (lookups [("ffmpeg", 1)] new_music))
               1 Hne).
Defined.

Lemma music_debug_spec_witness :
  2 ≠ 1
  ∧ debug_on (music_debug 0 1 ModeToggle ∅).1 2 = debug_on ∅ 2
  ∧ debug_on (music_debug 0 1 ModeToggle ∅).1 1 = true.
Proof.
  assert (Hne : 2 ≠ 1) by discriminate.
  destruct (music_debug_spec 0 1 ModeToggle ∅) as (_ & _ & H3 & _ & H5 & _).
  split; [exact Hne |]. split; [exact (H5 2 Hne) | exact H3].
Defined.

Lemma monitor_counts_calls_witness :
  Monitor.count
    (default (Monitor.new_metric 0)
       (Monitor.task_metrics
          (Monitor.record_all 0 Z.add Z.gtb (fun d => Z.gtb d 10000)
             (fun s => s) sample_calls Monitor.new_monitor)
        !! "music.track_play")) = 1.
Proof.
  exact (proj1 (monitor_counts_calls 0 Z.add Z.gtb (fun d => Z.gtb d 10000)
                  (fun s => s) sample_calls "music.track_play")).
Defined.
